(** * rotki frontend: data table pagination, table filter, backup manager,
      external service keys, asset form and snapshot editor

    A shallow embedding of the script parts of the Vue components the
    specification talks about, with the properties the specification
    states about them.

    Conventions of the embedding.
    - JavaScript numbers that the components only use as counts, indexes and
      identifiers are mathematical integers ([Z]); amounts held in the
      arbitrary-precision [BigNumber] class are rationals ([Qc]).
    - A JavaScript object used as a dictionary is a [gmap] with string keys.
      [Object.entries] is read through [map_to_list]; no statement below
      depends on the enumeration order.
    - An optional field ([field?: T]) is an [option].
    - Helpers that the components import from elsewhere ([t] of vue-i18n,
      [getFilepath], [isNft], [toCapitalCase], ...) are section variables.
    - An awaited backend call is an [Outcome]: resolved with a value or
      rejected with an error object. *)

From stdpp Require Import gmap strings list fin_maps pretty.
From Stdlib Require Import Ascii ZArith QArith Qround Qcanon Qcabs.

Close Scope Qc_scope.
Close Scope Q_scope.
Local Open Scope Z_scope.

(** ** JavaScript values shared by the components *)

(** Truthiness of a string: only the empty string is falsy. *)
Definition truthy (s : string) : bool :=
  match s with
  | EmptyString => false
  | String _ _ => true
  end.

(** [a || b] on strings. *)
Definition or_else (a b : string) : string :=
  if truthy a then a else b.

(** [s.startsWith('!')] and [s.substring(1)]. *)
Definition startsWith_bang (s : string) : bool :=
  match s with
  | String c _ => bool_decide (c = "!"%char)
  | EmptyString => false
  end.

Definition substring1 (s : string) : string :=
  match s with
  | String _ rest => rest
  | EmptyString => EmptyString
  end.

(** [array.findIndex(pred)]: the first index whose element satisfies [pred],
    [-1] when there is none. *)
Fixpoint findIndex {A : Type} (pred : A → bool) (l : list A) : Z :=
  match l with
  | [] => -1
  | x :: rest =>
      if pred x then 0
      else let i := findIndex pred rest in
           if i <? 0 then -1 else i + 1
  end.

(** [array.splice(start, 1)]: a negative [start] counts from the end
    (clamped at 0), a [start] past the end removes nothing. *)
Definition splice1 {A : Type} (start : Z) (l : list A) : list A :=
  let len := Z.of_nat (length l) in
  let from := if start <? 0 then Z.max (len + start) 0 else Z.min start len in
  take (Z.to_nat from) l ++ drop (S (Z.to_nat from)) l.


(** ** Awaited backend calls and the handlers around them *)

(** What [ApiValidationError.getValidationErrors] ('@/types/api/errors')
    returns: a message, or the backend's errors by field. Two keys are read
    apart by the asset form: [underlyingTokens] (a message, or a record of
    [address] and [weight] messages per token, in [Object.values] order) and
    [_schema]; [fields] holds every other key. *)
Record UnderlyingTokenError := {
  address : option (list string);
  weight : option (list string)
}.

Inductive UnderlyingTokenErrors :=
| TokensMessage (text : string)
| TokensRecord (entries : list (string * UnderlyingTokenError)).

Record ValidationErrors := {
  underlyingTokens : option UnderlyingTokenErrors;
  _schema : option (list string);
  fields : gmap string (list string)
}.

Inductive ValidationResult :=
| ValidationMessage (text : string)
| ValidationFields (errors : ValidationErrors).

(** The object of a rejected call, or of a [throw]. The asset form tells an
    [ApiValidationError] from other errors; [validationErrors] is the result
    of its [getValidationErrors] on the payload that was sent. *)
Inductive Exception :=
| Error (text : string)
| TypeError (text : string)
| ApiValidationError (text : string) (validationErrors : ValidationResult).

(** [e.message]. *)
Definition message (e : Exception) : string :=
  match e with
  | Error text => text
  | TypeError text => text
  | ApiValidationError text _ => text
  end.

(** How an awaited call, or a handler, ends. *)
Inductive Outcome (A : Type) :=
| Resolved (a : A)
| Rejected (e : Exception).
Arguments Resolved {A} a.
Arguments Rejected {A} e.

(** An [async] function over the reactive state [S] of its component. *)
Definition Handler (S A : Type) : Type := S → Outcome A * S.

Section Handler.
Context {S : Type}.

Definition ret {A : Type} (a : A) : Handler S A := λ s, (Resolved a, s).

Definition bind {A B : Type} (m : Handler S A) (k : A → Handler S B)
  : Handler S B :=
  λ s, match m s with
       | (Resolved a, s') => k a s'
       | (Rejected e, s') => (Rejected e, s')
       end.

(** [get(ref)] and [set(ref, value)] on the state as a whole. *)
Definition read : Handler S S := λ s, (Resolved s, s).
Definition update (f : S → S) : Handler S unit := λ s, (Resolved tt, f s).

(** [await call]. *)
Definition await {A : Type} (call : Outcome A) : Handler S A :=
  λ s, (call, s).

(** [try { body } catch (e) { handler }]. *)
Definition tryCatch {A : Type} (body : Handler S A)
    (handler : Exception → Handler S A) : Handler S A :=
  λ s, match body s with
       | (Resolved a, s') => (Resolved a, s')
       | (Rejected e, s') => handler e s'
       end.

(** [try { body } finally { final }]. *)
Definition tryFinally {A : Type} (body : Handler S A)
    (final : Handler S unit) : Handler S A :=
  λ s, match body s with
       | (result, s') =>
           match final s' with
           | (Resolved _, s'') => (result, s'')
           | (Rejected e, s'') => (Rejected e, s'')
           end
       end.
End Handler.

Declare Scope handler_scope.
Delimit Scope handler_scope with handler.
Notation "'let*' x ':=' m 'in' k" :=
  (bind m (λ x, k))
    (at level 10, x name, m at level 100, k at level 200,
     only parsing) : handler_scope.
Notation "m >> k" :=
  (bind m (λ _, k))
    (at level 100, k at level 200, right associativity,
     only parsing) : handler_scope.

(** Runs the combinators of a handler that is applied to a state. *)
Ltac run_handler :=
  cbv beta iota zeta delta
    [bind ret read update await tryCatch tryFinally];
  simpl.

(** ** Data table: the page selector (components/helper/DataTable.vue) *)

Module DataTable.

Record PageEntry := { value : Z; text : string }.

(** The numbers of the component are doubles. On safe integers (at most
    [2^53 - 1]) the quotient has the ceiling of the exact one, and the
    products and sums that are printed are exact; the properties below
    assume as much of the items length and of the items per page. *)
Definition maxSafeInteger : Z := 9007199254740991.

(** The greatest length [new Array] accepts: [2^32 - 1]. *)
Definition maxArrayLength : Z := 4294967295.

(** [Math.ceil(itemsLength / perPage)]. *)
Definition totalPage (itemsLength perPage : Z) : Z :=
  Qceiling (inject_Z itemsLength / inject_Z perPage).

(** The template literal of one entry. *)
Definition pageText (itemsLength perPage index : Z) : string :=
  pretty (index * perPage + 1) +:+ " - " +:+
  pretty (Z.min ((index + 1) * perPage) itemsLength).

(** [pageSelectorData]. [new Array(totalPage)] raises a [RangeError] for a
    length that is negative, not finite (division by zero) or above
    [2^32 - 1]: [None]. *)
Definition pageSelectorData (itemsLength perPage : Z)
  : option (list PageEntry) :=
  if (perPage =? 0) || (totalPage itemsLength perPage <? 0) ||
     (maxArrayLength <? totalPage itemsLength perPage) then None
  else
    Some (imap
            (λ (index : nat) (_ : Z),
               {| value := Z.of_nat index + 1;
                  text := pageText itemsLength perPage (Z.of_nat index) |})
            (replicate (Z.to_nat (totalPage itemsLength perPage)) 0)).

Example pageSelectorData_25_10 :
  pageSelectorData 25 10 =
    Some [ {| value := 1; text := "1 - 10" |};
           {| value := 2; text := "11 - 20" |};
           {| value := 3; text := "21 - 25" |} ].
Proof. reflexivity. Qed.

Example pageSelectorData_exact_multiple :
  pageSelectorData 20 10 =
    Some [ {| value := 1; text := "1 - 10" |};
           {| value := 2; text := "11 - 20" |} ].
Proof. reflexivity. Qed.

Example pageSelectorData_zero_per_page : pageSelectorData 25 0 = None.
Proof. reflexivity. Qed.

(** The rational ceiling, computed on integers. *)
Lemma totalPage_div (N p : Z) : 0 < p → totalPage N p = - ((- N) / p).
Proof.
  intros Hp. unfold totalPage, Qceiling. f_equal.
  rewrite Zdiv_Qdiv. apply Qfloor_comp.
  rewrite inject_Z_opp. unfold Qdiv. ring.
Qed.

(** It is the least number of pages of [p] items that hold [N] items. *)
Lemma totalPage_bounds (N p : Z) :
  0 < p → (totalPage N p - 1) * p < N ≤ totalPage N p * p.
Proof.
  intros Hp. rewrite totalPage_div by done.
  pose proof (Z.div_mod (- N) p ltac:(lia)) as Hdm.
  pose proof (Z.mod_pos_bound (- N) p Hp) as Hr.
  nia.
Qed.

Lemma totalPage_pos (N p : Z) : 0 < N → 0 < p → 0 < totalPage N p.
Proof.
  intros HN Hp. pose proof (totalPage_bounds N p Hp) as [_ Hle]. nia.
Qed.




(** *** Edge cases and the ranges of the page selector *)

(** With a negative divisor the quotient is that of the negated operands. *)
Lemma totalPage_opp (N p : Z) : p ≠ 0 → totalPage N p = totalPage (- N) (- p).
Proof.
  intros Hp. unfold totalPage. apply Qceiling_comp.
  rewrite !inject_Z_opp. field.
  intros H. apply Hp. unfold Qeq in H. simpl in H. lia.
Qed.

Lemma totalPage_negative (N p : Z) :
  0 ≤ N → p ≠ 0 → (totalPage N p < 0 ↔ p < 0 ∧ - p ≤ N).
Proof.
  intros HN Hp. destruct (Z.lt_trichotomy p 0) as [Hneg | [-> | Hpos]];
    [| done |].
  - rewrite totalPage_opp, totalPage_div by lia.
    rewrite Z.opp_involutive.
    pose proof (Z.div_mod N (- p) ltac:(lia)) as Hdm.
    pose proof (Z.mod_pos_bound N (- p) ltac:(lia)) as Hr.
    split; [intros H; split; [done | nia] | intros [_ H]; nia].
  - pose proof (totalPage_bounds N p Hpos). split; [nia | lia].
Qed.

Lemma totalPage_too_long (N p : Z) :
  0 ≤ N → p ≠ 0 →
  (maxArrayLength < totalPage N p ↔ 0 < p ∧ maxArrayLength * p < N).
Proof.
  intros HN Hp. unfold maxArrayLength.
  destruct (Z.lt_trichotomy p 0) as [Hneg | [-> | Hpos]]; [| done |].
  - rewrite totalPage_opp, totalPage_div by lia.
    rewrite Z.opp_involutive.
    pose proof (Z.div_pos N (- p) HN ltac:(lia)).
    split; [lia | intros [? _]; lia].
  - pose proof (totalPage_bounds N p Hpos) as [Hlow Hhigh].
    split; [intros H; split; [done | nia] | intros [_ H]; nia].
Qed.

(** X1. For an items length [N >= 0] and items per page [p], both safe
    integers, [pageSelectorData] raises (the [RangeError] of [new Array])
    exactly when [p] is [0], or [p] is negative with [N] at least its
    absolute value, or [p] is positive and the items need more than
    [2^32 - 1] pages; in every other case it returns a list. *)
Theorem pageSelectorData_raises (N p : Z) :
  0 ≤ N ≤ maxSafeInteger → - maxSafeInteger ≤ p ≤ maxSafeInteger →
  (pageSelectorData N p = None ↔
   p = 0 ∨ (p < 0 ∧ - p ≤ N) ∨ (0 < p ∧ maxArrayLength * p < N)).
Proof.
  intros [HN _] _. unfold pageSelectorData.
  destruct (p =? 0) eqn:Hp0; simpl.
  - apply Z.eqb_eq in Hp0. split; [by left | done].
  - apply Z.eqb_neq in Hp0.
    pose proof (totalPage_negative N p HN Hp0) as Hnegative.
    pose proof (totalPage_too_long N p HN Hp0) as Hlong.
    destruct (totalPage N p <? 0) eqn:Hneg; simpl.
    + apply Z.ltb_lt in Hneg. split; [intros _ | done].
      right. left. by apply Hnegative.
    + apply Z.ltb_ge in Hneg.
      destruct (maxArrayLength <? totalPage N p) eqn:Hmax.
      * apply Z.ltb_lt in Hmax. split; [intros _ | done].
        right. right. by apply Hlong.
      * apply Z.ltb_ge in Hmax. split; [done |].
        intros [-> | [H | H]]; [done | |].
        -- apply Hnegative in H. lia.
        -- apply Hlong in H. lia.
Qed.

Lemma pageSelectorData_raises_witness :
  (pageSelectorData 25 (-10) = None ↔
   -10 = 0 ∨ (-10 < 0 ∧ - -10 ≤ 25) ∨
   (0 < -10 ∧ maxArrayLength * -10 < 25)) ∧
  (pageSelectorData 4294967296 1 = None ↔
   1 = 0 ∨ (1 < 0 ∧ - 1 ≤ 4294967296) ∨
   (0 < 1 ∧ maxArrayLength * 1 < 4294967296)) ∧
  (pageSelectorData 4294967295 1 = None ↔
   1 = 0 ∨ (1 < 0 ∧ - 1 ≤ 4294967295) ∨
   (0 < 1 ∧ maxArrayLength * 1 < 4294967295)).
Proof.
  split_and!.
  - apply (pageSelectorData_raises 25 (-10)); unfold maxSafeInteger; lia.
  - apply (pageSelectorData_raises 4294967296 1); unfold maxSafeInteger; lia.
  - apply (pageSelectorData_raises 4294967295 1); unfold maxSafeInteger; lia.
Defined.

(** The items of page [index], as the text of its entry names them. *)
Definition pageBounds (itemsLength perPage : Z) (index : nat) : Z * Z :=
  (Z.of_nat index * perPage + 1,
   Z.min ((Z.of_nat index + 1) * perPage) itemsLength).

Lemma pageBounds_join (N p : Z) (j : nat) :
  0 ≤ N → 0 < p → (Z.of_nat j - 1) * p < N →
  mjoin ((λ ab : Z * Z, seqZ ab.1 (ab.2 - ab.1 + 1)) <$>
         (pageBounds N p <$> seq 0 j)) =
    seqZ 1 (Z.min (Z.of_nat j * p) N).
Proof.
  intros HN Hp. induction j as [| j IH]; intros Hj.
  { simpl. by rewrite Z.min_l by lia. }
  rewrite seq_S, !fmap_app, join_app, IH by nia.
  simpl. rewrite app_nil_r.
  rewrite Z.min_l by nia.
  rewrite Nat2Z.inj_succ in *. unfold Z.succ in *.
  set (first := Z.of_nat j * p) in *.
  set (last := Z.min ((Z.of_nat j + 1) * p) N).
  assert (0 ≤ first) by (subst first; nia).
  assert (first < last) by (subst first last; nia).
  replace (Z.min ((Z.of_nat j + 1) * p) N) with last by done.
  replace (first + 1) with (1 + first) by lia.
  rewrite <- seqZ_app by lia. f_equal.
  subst first last. lia.
Qed.

(** X2. For [N > 0] items and [p > 0] items per page, both safe integers,
    that make at most [2^32 - 1] pages, the texts of [pageSelectorData]
    name consecutive ranges of items: each range is not empty and holds at
    most [p] items, and the ranges, one after the other, are exactly the
    items [1 .. N]. No item is left out of the selector and none is listed
    on two pages. *)
Theorem pageSelectorData_ranges (N p : Z) :
  0 < N ≤ maxSafeInteger → 0 < p ≤ maxSafeInteger →
  N ≤ maxArrayLength * p →
  ∃ (pages : list PageEntry) (bounds : list (Z * Z)),
    pageSelectorData N p = Some pages ∧
    text <$> pages =
      (λ ab : Z * Z, pretty ab.1 +:+ " - " +:+ pretty ab.2) <$> bounds ∧
    Forall (λ ab : Z * Z, ab.1 ≤ ab.2 < ab.1 + p) bounds ∧
    mjoin ((λ ab : Z * Z, seqZ ab.1 (ab.2 - ab.1 + 1)) <$> bounds) =
      seqZ 1 N.
Proof.
  intros [HN _] [Hp _] Hlength.
  pose proof (totalPage_pos N p HN Hp) as Hpos.
  pose proof (totalPage_bounds N p Hp) as [Hlow Hhigh].
  unfold pageSelectorData.
  replace (p =? 0) with false by (symmetry; apply Z.eqb_neq; lia).
  replace (totalPage N p <? 0) with false by (symmetry; apply Z.ltb_ge; lia).
  replace (maxArrayLength <? totalPage N p) with false
    by (symmetry; apply Z.ltb_ge; nia).
  simpl. set (k := Z.to_nat (totalPage N p)).
  assert (Hk : Z.of_nat k = totalPage N p) by (subst k; lia).
  eexists _, (pageBounds N p <$> seq 0 k). split_and!; [reflexivity | | |].
  - apply list_eq. intros i.
    rewrite !list_lookup_fmap, list_lookup_imap.
    destruct (decide (i < k)%nat) as [Hi | Hi].
    + by rewrite lookup_replicate_2, lookup_seq_lt by done.
    + rewrite (proj1 (lookup_replicate_None _ _ _)), lookup_seq_ge by lia.
      done.
  - apply Forall_fmap, Forall_seq. intros i Hi. simpl. nia.
  - rewrite pageBounds_join by lia. f_equal. lia.
Qed.

Lemma pageSelectorData_ranges_witness :
  ∃ (pages : list PageEntry) (bounds : list (Z * Z)),
    pageSelectorData 25 10 = Some pages ∧
    text <$> pages =
      (λ ab : Z * Z, pretty ab.1 +:+ " - " +:+ pretty ab.2) <$> bounds ∧
    Forall (λ ab : Z * Z, ab.1 ≤ ab.2 < ab.1 + 10) bounds ∧
    mjoin ((λ ab : Z * Z, seqZ ab.1 (ab.2 - ab.1 + 1)) <$> bounds) =
      seqZ 1 25.
Proof.
  apply (pageSelectorData_ranges 25 10);
    unfold maxSafeInteger, maxArrayLength; lia.
Defined.

(** *** The items per page *)

(** [TablePagination] of '@/types/pagination': the fields the component
    reads, absent or not. *)
Record TablePagination := {
  page : option Z;
  itemsPerPage : option Z
}.

(** The computed [itemsPerPageUsed]:
    [options?.itemsPerPage ?? itemsPerPageFromFrontendSetting]. *)
Definition itemsPerPageUsed (options : option TablePagination) (setting : Z)
  : Z :=
  match options with
  | Some o => default setting (itemsPerPage o)
  | None => setting
  end.

(** [onItemsPerPageChange(newValue)]: the [itemsPerPage] it passes to
    [updateSetting], [None] when it returns without the call. *)
Definition onItemsPerPageChange (options : option TablePagination)
    (setting newValue : Z) : option Z :=
  if itemsPerPageUsed options setting =? newValue then None
  else Some newValue.

(** The first [onMounted] hook: the new [currentPage] and the
    [itemsPerPage] passed to [updateSetting], if any. A number is truthy
    when it is not [0]. *)
Definition mounted (options : option TablePagination)
    (setting currentPage : Z) : Z * option Z :=
  match options with
  | None => (currentPage, None)
  | Some optionsVal =>
      (match page optionsVal with
       | Some p => if p =? 0 then currentPage else p
       | None => currentPage
       end,
       match itemsPerPage optionsVal with
       | Some n =>
           if n =? 0 then None else onItemsPerPageChange options setting n
       | None => None
       end)
  end.

(** X30. The [onMounted] hook never changes the stored setting: the items
    per page it hands to [onItemsPerPageChange] are those of the options,
    which [itemsPerPageUsed] already returns, so the function returns
    before [updateSetting]. A change of the items per page by the user
    reaches [updateSetting] exactly when the new value differs from the
    one in use. *)
Theorem mounted_keeps_setting (options : option TablePagination)
    (setting currentPage newValue : Z) :
  (mounted options setting currentPage).2 = None ∧
  (onItemsPerPageChange options setting newValue = Some newValue ↔
   newValue ≠ itemsPerPageUsed options setting) ∧
  (onItemsPerPageChange options setting newValue = None ↔
   newValue = itemsPerPageUsed options setting).
Proof.
  split_and!.
  - unfold mounted, onItemsPerPageChange, itemsPerPageUsed.
    destruct options as [[p [n |]] |]; simpl; [| done..].
    destruct (n =? 0); [done |]. by rewrite Z.eqb_refl.
  - unfold onItemsPerPageChange.
    destruct (Z.eqb_spec (itemsPerPageUsed options setting) newValue);
      split; (done || congruence).
  - unfold onItemsPerPageChange.
    destruct (Z.eqb_spec (itemsPerPageUsed options setting) newValue);
      split; (done || congruence).
Qed.


End DataTable.

(** ** Table filter (components/table-filter/TableFilter.vue) *)

Module TableFilter.

(** *** The types of '@/types/filtering', as the component uses them *)

(** [AssetInfo] of '@rotki/common': the fields the component reads. *)
Record AssetInfo := {
  identifier : string;
  name : string;
  symbol : string;
  isCustomAsset : bool
}.

(** [Suggestion.value : string | AssetInfo]. *)
Inductive SuggestionValue :=
| StringValue (s : string)
| AssetValue (a : AssetInfo).

Module Suggestion.
Record t := mk {
  index : Z;
  total : Z;
  asset : bool;
  key : string;
  value : SuggestionValue;
  exclude : option bool
}.
End Suggestion.

(** [StringSearchMatcher] ([string: true]) and [AssetSearchMatcher]
    ([asset: true]). *)
Inductive MatcherKind :=
| StringMatcher (validate : string → bool)
                (serializer deserializer : option (string → string))
| AssetMatcher (deserializer : option (string → option AssetInfo)).

Module Matcher.
Record t := mk {
  key : string;
  keyValue : option string;
  multiple : bool;
  kind : MatcherKind
}.
End Matcher.

(** A value of the emitted [MatchedKeyword] object: [string | string[]]. *)
Inductive MatchedValue :=
| Single (keyword : string)
| Many (keywords : list string).

(** [entry.exclude] read as a condition. *)
Definition excluded (entry : Suggestion.t) : bool :=
  match Suggestion.exclude entry with
  | Some b => b
  | None => false
  end.

(** *** updateMatches *)

Definition matcherForKey (matchers : list Matcher.t) (searchKey : string)
  : option Matcher.t :=
  find (λ m, bool_decide (Matcher.key m = searchKey)) matchers.

Definition matcherForKeyValue (matchers : list Matcher.t) (searchKey : string)
  : option Matcher.t :=
  find (λ m, bool_decide (Matcher.keyValue m = Some searchKey)) matchers.

(** [(matcher.keyValue || matcher.key)]. *)
Definition valueKey (m : Matcher.t) : string :=
  match Matcher.keyValue m with
  | Some kv => or_else kv (Matcher.key m)
  | None => Matcher.key m
  end.

(** [matcher.serializer?.(value) || value]. *)
Definition serialize (serializer : option (string → string)) (v : string)
  : string :=
  match serializer with
  | Some f => or_else (f v) v
  | None => v
  end.

(** The keyword of a string entry that passed [validate]. *)
Definition stringKeyword (serializer : option (string → string))
    (isExcluded : bool) (v : string) : string :=
  if isExcluded then "!" +:+ serialize serializer v
  else serialize serializer v.

(** The body of the loop up to [if (!transformedKeyword) continue]:
    [None] stands for [continue]. *)
Definition transformedKeyword (m : Matcher.t) (entry : Suggestion.t)
  : option string :=
  let keyword :=
    match Matcher.kind m, Suggestion.value entry with
    | StringMatcher validate serializer _, StringValue v =>
        if validate v then Some (stringKeyword serializer (excluded entry) v)
        else None
    | StringMatcher _ _ _, AssetValue _ => None
    | AssetMatcher _, AssetValue a => Some (identifier a)
    | AssetMatcher _, StringValue v => Some v
    end in
  match keyword with
  | Some kw => if truthy kw then Some kw else None
  | None => None
  end.

(** The names that every object inherits from [Object.prototype]. *)
Definition objectPrototypeNames : list string :=
  [ "constructor"; "hasOwnProperty"; "isPrototypeOf"; "propertyIsEnumerable";
    "toLocaleString"; "toString"; "valueOf"; "__proto__";
    "__defineGetter__"; "__defineSetter__"; "__lookupGetter__";
    "__lookupSetter__" ].

(** No slot of a matcher is such a name. *)
Definition ownSlots (ms : list Matcher.t) : Prop :=
  Forall (λ m, valueKey m ∉ objectPrototypeNames) ms.

(** The update of [matched], an object literal: the map holds its own
    keys, and it inherits the names above. A [multiple] matcher reads its
    slot first. An inherited name reads as a function (as the prototype,
    for ["__proto__"]): the slot is not initialised and has no [push]; and
    [push] on a slot that holds a non-empty string fails as well. Either is
    a [TypeError]: [None]. A matcher without [multiple] assigns its slot,
    which makes an own key, except under ["__proto__"], whose setter drops
    a string. *)
Definition record (m : Matcher.t) (kw : string)
    (matched : gmap string MatchedValue) : option (gmap string MatchedValue) :=
  if Matcher.multiple m then
    match matched !! valueKey m with
    | None =>
        if bool_decide (valueKey m ∈ objectPrototypeNames) then None
        else Some (<[valueKey m := Many [kw]]> matched)
    | Some (Many previous) =>
        Some (<[valueKey m := Many (previous ++ [kw])]> matched)
    | Some (Single s) =>
        if truthy s then None
        else Some (<[valueKey m := Many [kw]]> matched)
    end
  else if bool_decide (valueKey m = "__proto__") then Some matched
  else Some (<[valueKey m := Single kw]> matched).

(** One iteration over [entry], on the pair ([matched], [validPairs]). *)
Definition processEntry (matchers : list Matcher.t) (entry : Suggestion.t)
    (acc : gmap string MatchedValue * list Suggestion.t)
  : option (gmap string MatchedValue * list Suggestion.t) :=
  match matcherForKey matchers (Suggestion.key entry) with
  | None => Some acc
  | Some m =>
      match transformedKeyword m entry with
      | None => Some acc
      | Some kw =>
          matched' ← record m kw acc.1;
          Some (matched', acc.2 ++ [entry])
      end
  end.

Fixpoint updateMatches_from (matchers : list Matcher.t)
    (pairs : list Suggestion.t)
    (acc : gmap string MatchedValue * list Suggestion.t)
  : option (gmap string MatchedValue * list Suggestion.t) :=
  match pairs with
  | [] => Some acc
  | entry :: rest =>
      acc' ← processEntry matchers entry acc;
      updateMatches_from matchers rest acc'
  end.

(** [updateMatches(pairs)]: the emitted [matched] object and the new
    [selection]; [None] when the loop raised. *)
Definition updateMatches (matchers : list Matcher.t)
    (pairs : list Suggestion.t)
  : option (gmap string MatchedValue * list Suggestion.t) :=
  updateMatches_from matchers pairs (∅, []).

(** *** applyFilter *)

(** [applyFilter(filter)]: the list it hands to [updateMatches]. The entries
    of the same key go when the matcher is not [multiple], or when the first
    of them differs from the new one in [exclude] (compared with [!==]).
    [None] when [assert(matcher)] fails. *)
Definition applyFilter (matchers : list Matcher.t)
    (selection : list Suggestion.t) (newFilter : Suggestion.t)
  : option (list Suggestion.t) :=
  let key := Suggestion.key newFilter in
  let index :=
    findIndex (λ value, bool_decide (Suggestion.key value = key)) selection in
  matcher ← matcherForKey matchers key;
  let differs :=
    match selection !! Z.to_nat index with
    | Some found =>
        negb (bool_decide (Suggestion.exclude found =
                           Suggestion.exclude newFilter))
    | None => true
    end in
  let newSelection :=
    if (0 <=? index) && (negb (Matcher.multiple matcher) || differs)
    then filter (λ item, Suggestion.key item ≠ key) selection
    else selection in
  Some (newSelection ++ [newFilter]).

(** *** restoreSelection *)

(** ['asset' in foundMatchers]. *)
Definition isAsset (m : Matcher.t) : bool :=
  match Matcher.kind m with
  | AssetMatcher _ => true
  | StringMatcher _ _ _ => false
  end.

Definition valueTruthy (v : SuggestionValue) : bool :=
  match v with
  | StringValue s => truthy s
  | AssetValue _ => true
  end.

(** [foundMatchers.deserializer?.(normalizedValue) || normalizedValue],
    first for a string matcher, then for either kind. *)
Definition deserializeString (deserializer : option (string → string))
    (normalizedValue : string) : string :=
  match deserializer with
  | Some g => or_else (g normalizedValue) normalizedValue
  | None => normalizedValue
  end.

Definition deserialize (m : Matcher.t) (normalizedValue : string)
  : SuggestionValue :=
  match Matcher.kind m with
  | StringMatcher _ _ deserializer =>
      StringValue (deserializeString deserializer normalizedValue)
  | AssetMatcher (Some g) =>
      match g normalizedValue with
      | Some a => AssetValue a
      | None => StringValue normalizedValue
      end
  | AssetMatcher None => StringValue normalizedValue
  end.

(** The body of [values.forEach]. *)
Definition restoreValue (oldSelection : list Suggestion.t) (m : Matcher.t)
    (value : string) : Suggestion.t :=
  let asset := isAsset m in
  let previous :=
    if asset then
      match find (λ s, bool_decide (Suggestion.key s = Matcher.key m))
                 oldSelection with
      | Some prevAssetSelection =>
          if valueTruthy (Suggestion.value prevAssetSelection)
          then Some (Suggestion.value prevAssetSelection)
          else None
      | None => None
      end
    else None in
  match previous with
  | Some deserializedValue =>
      Suggestion.mk 0 1 asset (Matcher.key m) deserializedValue (Some false)
  | None =>
      let bang := negb asset && startsWith_bang value in
      let normalizedValue := if bang then substring1 value else value in
      Suggestion.mk 0 1 asset (Matcher.key m)
                    (deserialize m normalizedValue) (Some bang)
  end.

(** The body of [Object.entries(matches).forEach]. *)
Definition restoreEntries (matchers : list Matcher.t)
    (oldSelection : list Suggestion.t) (kv : string * MatchedValue)
  : list Suggestion.t :=
  match matcherForKeyValue matchers kv.1 with
  | None => []
  | Some foundMatchers =>
      match kv.2 with
      | Single value =>
          if truthy value then [restoreValue oldSelection foundMatchers value]
          else []
      | Many values => restoreValue oldSelection foundMatchers <$> values
      end
  end.

(** [restoreSelection(matches)]: the new [selection]. *)
Definition restoreSelection (matchers : list Matcher.t)
    (oldSelection : list Suggestion.t) (matches : gmap string MatchedValue)
  : list Suggestion.t :=
  map_to_list matches ≫= restoreEntries matchers oldSelection.

(** What the round trip is about: key, value and exclusion of a chip. *)
Definition chip (entry : Suggestion.t) : string * SuggestionValue * bool :=
  (Suggestion.key entry, Suggestion.value entry, excluded entry).

(** A string entry that [restoreSelection] can rebuild from its keyword:
    its value passes [validate]; its matcher is the one found back from
    the emitted key; when it is not excluded, its serialized value is not
    empty and does not start with ["!"]; and the deserializer maps the
    serialized value back to the value. *)
Definition restorable (ms : list Matcher.t) (entry : Suggestion.t) : Prop :=
  ∃ (m : Matcher.t) (validate : string → bool)
    (serializer deserializer : option (string → string)) (v : string),
    matcherForKey ms (Suggestion.key entry) = Some m ∧
    Matcher.kind m = StringMatcher validate serializer deserializer ∧
    Suggestion.value entry = StringValue v ∧
    validate v = true ∧
    matcherForKeyValue ms (valueKey m) = Some m ∧
    (excluded entry = false →
     serialize serializer v ≠ "" ∧
     startsWith_bang (serialize serializer v) = false) ∧
    deserializeString deserializer (serialize serializer v) = v.

(** The entry belongs to a matcher without [multiple]. *)
Definition singleValued (ms : list Matcher.t) (entry : Suggestion.t) : bool :=
  match matcherForKey ms (Suggestion.key entry) with
  | Some m => negb (Matcher.multiple m)
  | None => false
  end.

(** *** The matchers of composables/filters/asset-movement.ts *)

Section AssetMovementFilters.
(** [MovementCategory.options], the store's [associatedLocations] and the
    date helpers of '@/types/filtering' applied to the date format. *)
Variables (movementCategories associatedLocations : list string).
Variables (dateValidator : string → bool).
Variables (dateSerializer dateDeserializer : string → string).
Variable (assetDeserializer : string → option AssetInfo).

Definition assetMovementMatchers : list Matcher.t :=
  [ Matcher.mk "asset" (Some "asset") false
      (AssetMatcher (Some assetDeserializer));
    Matcher.mk "action" (Some "action") false
      (StringMatcher (λ type, bool_decide (type ∈ movementCategories))
                     None None);
    Matcher.mk "start" (Some "fromTimestamp") false
      (StringMatcher dateValidator
                     (Some dateSerializer) (Some dateDeserializer));
    Matcher.mk "end" (Some "toTimestamp") false
      (StringMatcher dateValidator
                     (Some dateSerializer) (Some dateDeserializer));
    Matcher.mk "location" (Some "location") false
      (StringMatcher (λ location, bool_decide (location ∈ associatedLocations))
                     None None) ].
End AssetMovementFilters.

(** *** Properties of updateMatches *)

Lemma updateMatches_from_app (ms : list Matcher.t) (l1 l2 : list Suggestion.t)
    (acc : gmap string MatchedValue * list Suggestion.t) :
  updateMatches_from ms (l1 ++ l2) acc =
    acc' ← updateMatches_from ms l1 acc; updateMatches_from ms l2 acc'.
Proof.
  revert acc. induction l1 as [| e l1 IH]; intros acc; simpl; [done |].
  destruct (processEntry ms e acc) as [acc' |]; simpl; [apply IH | done].
Qed.

(** Appending an entry runs one more iteration on the result. *)
Lemma updateMatches_snoc (ms : list Matcher.t) (pairs : list Suggestion.t)
    (entry : Suggestion.t) :
  updateMatches ms (pairs ++ [entry]) =
    acc ← updateMatches ms pairs; processEntry ms entry acc.
Proof.
  unfold updateMatches. rewrite updateMatches_from_app.
  destruct (updateMatches_from ms pairs (∅, [])) as [acc |]; simpl; [| done].
  by destruct (processEntry ms entry acc).
Qed.

(** An entry that [continue]s leaves no trace, wherever it stands. *)
Lemma updateMatches_skip (ms : list Matcher.t) (l1 l2 : list Suggestion.t)
    (entry : Suggestion.t) :
  (∀ acc, processEntry ms entry acc = Some acc) →
  updateMatches ms (l1 ++ entry :: l2) = updateMatches ms (l1 ++ l2).
Proof.
  intros Hskip. unfold updateMatches. rewrite !updateMatches_from_app.
  destruct (updateMatches_from ms l1 (∅, [])) as [acc |]; simpl; [| done].
  by rewrite Hskip.
Qed.

Lemma truthy_true (s : string) : truthy s = true ↔ s ≠ "".
Proof. destruct s; simpl; split; intros; congruence. Qed.

Lemma truthy_false (s : string) : truthy s = false ↔ s = "".
Proof. destruct s; simpl; split; intros; congruence. Qed.

(** On a slot that is no inherited name, [record] is the update of a map. *)
Lemma record_own (m : Matcher.t) (kw : string)
    (matched : gmap string MatchedValue) :
  valueKey m ∉ objectPrototypeNames →
  record m kw matched =
    if Matcher.multiple m then
      match matched !! valueKey m with
      | None => Some (<[valueKey m := Many [kw]]> matched)
      | Some (Many previous) =>
          Some (<[valueKey m := Many (previous ++ [kw])]> matched)
      | Some (Single s) =>
          if truthy s then None
          else Some (<[valueKey m := Many [kw]]> matched)
      end
    else Some (<[valueKey m := Single kw]> matched).
Proof.
  intros Hown. unfold record.
  rewrite (bool_decide_eq_false_2 (valueKey m ∈ objectPrototypeNames))
    by done.
  rewrite (bool_decide_eq_false_2 (valueKey m = "__proto__")); [done |].
  intros Hproto. apply Hown. rewrite Hproto.
  apply (bool_decide_unpack _). vm_compute. exact I.
Qed.

Lemma ownSlots_matcher (ms : list Matcher.t) (k : string) (m : Matcher.t) :
  ownSlots ms → matcherForKey ms k = Some m →
  valueKey m ∉ objectPrototypeNames.
Proof.
  unfold ownSlots. rewrite Forall_forall. intros Hown Hm.
  apply Hown. apply find_some in Hm as [Hm _]. by apply list_elem_of_In.
Qed.

Lemma transformedKeyword_truthy (m : Matcher.t) (entry : Suggestion.t)
    (kw : string) :
  transformedKeyword m entry = Some kw → truthy kw = true.
Proof.
  unfold transformedKeyword. intros H.
  repeat case_match; simplify_eq; done.
Qed.

(** The keyword of a string entry, as [transformedKeyword] computes it. *)
Lemma transformedKeyword_string (m : Matcher.t) (entry : Suggestion.t)
    (validate : string → bool)
    (serializer deserializer : option (string → string)) (v : string) :
  Matcher.kind m = StringMatcher validate serializer deserializer →
  Suggestion.value entry = StringValue v →
  transformedKeyword m entry =
    if validate v && truthy (stringKeyword serializer (excluded entry) v)
    then Some (stringKeyword serializer (excluded entry) v)
    else None.
Proof.
  intros Hkind Hvalue. unfold transformedKeyword. rewrite Hkind, Hvalue.
  destruct (validate v); simpl; [| done].
  by destruct (truthy _).
Qed.

(** No slot of the emitted object holds an empty string. *)
Definition singlesTruthy (matched : gmap string MatchedValue) : Prop :=
  ∀ k s, matched !! k = Some (Single s) → truthy s = true.

Lemma record_singlesTruthy (m : Matcher.t) (kw : string)
    (matched matched' : gmap string MatchedValue) :
  truthy kw = true → singlesTruthy matched →
  record m kw matched = Some matched' → singlesTruthy matched'.
Proof.
  intros Hkw Hinv Hrec k s Hk. unfold record in Hrec.
  assert (Hins : ∀ new,
    (∀ s', new = Single s' → truthy s' = true) →
    matched' = <[valueKey m := new]> matched → truthy s = true).
  { intros new Hnew ->. destruct (decide (valueKey m = k)) as [Heq | Hne].
    - rewrite Heq, lookup_insert_eq in Hk. simplify_eq. by apply Hnew.
    - rewrite lookup_insert_ne in Hk by done. eauto. }
  repeat case_match; simplify_eq;
    first [ by eauto
          | eapply Hins; [| reflexivity]; intros s' [= <-]; done ].
Qed.

Lemma processEntry_singlesTruthy (ms : list Matcher.t) (entry : Suggestion.t)
    (acc acc' : gmap string MatchedValue * list Suggestion.t) :
  singlesTruthy acc.1 → processEntry ms entry acc = Some acc' →
  singlesTruthy acc'.1.
Proof.
  intros Hinv. unfold processEntry.
  destruct (matcherForKey ms (Suggestion.key entry)) as [m |];
    [| by intros [= <-]].
  destruct (transformedKeyword m entry) as [kw |] eqn:Hkw;
    [| by intros [= <-]].
  destruct (record m kw acc.1) as [matched' |] eqn:Hrec; simpl; [| done].
  intros [= <-]. simpl.
  eapply record_singlesTruthy; eauto using transformedKeyword_truthy.
Qed.

Lemma updateMatches_from_singlesTruthy (ms : list Matcher.t)
    (pairs : list Suggestion.t)
    (acc acc' : gmap string MatchedValue * list Suggestion.t) :
  singlesTruthy acc.1 → updateMatches_from ms pairs acc = Some acc' →
  singlesTruthy acc'.1.
Proof.
  revert acc. induction pairs as [| e pairs IH]; intros acc Hinv; simpl.
  - by intros [= <-].
  - destruct (processEntry ms e acc) as [acc1 |] eqn:He; simpl; [| done].
    apply IH. by eapply processEntry_singlesTruthy.
Qed.

Lemma updateMatches_singlesTruthy (ms : list Matcher.t)
    (pairs : list Suggestion.t) (matched : gmap string MatchedValue)
    (selection : list Suggestion.t) :
  updateMatches ms pairs = Some (matched, selection) → singlesTruthy matched.
Proof.
  intros H.
  apply (updateMatches_from_singlesTruthy ms pairs (∅, []) _) in H; [done |].
  intros k s Hk. simpl in Hk. by rewrite lookup_empty in Hk.
Qed.


(** A serializer that returns an empty string is ignored: the raw value is
    emitted. *)
Lemma updateMatches_empty_serialization :
  let m := Matcher.mk "start" (Some "fromTimestamp") false
             (StringMatcher (λ _, true) (Some (λ _, "")) None) in
  let entry := Suggestion.mk 0 1 false "start" (StringValue "soon") None in
  updateMatches [m] [entry] =
    Some ({[ "fromTimestamp" := Single "soon" ]}, [entry]).
Proof. reflexivity. Qed.

(** Two matchers that share a [keyValue], the second one with [multiple]:
    [push] is called on the string the first one stored, and the call
    raises. *)
Lemma updateMatches_push_on_string :
  let single := Matcher.mk "a" (Some "shared") false
                  (StringMatcher (λ _, true) None None) in
  let multi := Matcher.mk "b" (Some "shared") true
                 (StringMatcher (λ _, true) None None) in
  updateMatches [single; multi]
    [ Suggestion.mk 0 1 false "a" (StringValue "x") None;
      Suggestion.mk 0 1 false "b" (StringValue "y") None ] = None.
Proof. reflexivity. Qed.


Lemma ownSlots_computed (ms : list Matcher.t) :
  forallb (λ m, bool_decide (valueKey m ∉ objectPrototypeNames)) ms = true →
  ownSlots ms.
Proof.
  intros H. apply Forall_forall. intros m Hm.
  rewrite forallb_forall in H. apply (bool_decide_unpack _).
  apply Is_true_true, H. by apply list_elem_of_In.
Qed.


(** A slot named after a member of [Object.prototype]: under a [multiple]
    matcher the loop raises at [push], and an assignment to ["__proto__"]
    keeps the entry in the selection and emits no slot for it. *)
Example updateMatches_inherited_slot :
  let kinds := Matcher.mk "kind" (Some "constructor") true
                 (StringMatcher (λ _, true) None None) in
  let plain := Matcher.mk "kind" (Some "__proto__") false
                 (StringMatcher (λ _, true) None None) in
  let entry := Suggestion.mk 0 1 false "kind" (StringValue "swap") None in
  ¬ ownSlots [kinds] ∧ ¬ ownSlots [plain] ∧
  updateMatches [kinds] [entry] = None ∧
  updateMatches [plain] [entry] = Some (∅, [entry]).
Proof.
  split_and!; try reflexivity.
  - intros H. apply Forall_inv in H. apply H. by left.
  - intros H. apply Forall_inv in H. apply H.
    by apply (bool_decide_unpack _).
Qed.

(** *** The round trip through restoreSelection *)

Lemma matcherForKey_key (ms : list Matcher.t) (k : string) (m : Matcher.t) :
  matcherForKey ms k = Some m → Matcher.key m = k.
Proof.
  intros H. apply find_some in H as [_ H]. by apply bool_decide_eq_true in H.
Qed.

Lemma restoreValue_string (old : list Suggestion.t) (m : Matcher.t)
    (value : string) :
  isAsset m = false →
  restoreValue old m value =
    Suggestion.mk 0 1 false (Matcher.key m)
      (deserialize m (if startsWith_bang value then substring1 value
                      else value))
      (Some (startsWith_bang value)).
Proof. intros Hm. unfold restoreValue. by rewrite Hm. Qed.

(** One chip survives the trip through its keyword. *)
Lemma chip_restoreValue (old : list Suggestion.t) (entry : Suggestion.t)
    (m : Matcher.t) (validate : string → bool)
    (serializer deserializer : option (string → string)) (v : string) :
  Matcher.key m = Suggestion.key entry →
  Matcher.kind m = StringMatcher validate serializer deserializer →
  Suggestion.value entry = StringValue v →
  (excluded entry = false →
   startsWith_bang (serialize serializer v) = false) →
  deserializeString deserializer (serialize serializer v) = v →
  chip (restoreValue old m (stringKeyword serializer (excluded entry) v)) =
    chip entry.
Proof.
  intros Hkey Hkind Hvalue Hbang Hinv.
  rewrite restoreValue_string by (unfold isAsset; by rewrite Hkind).
  unfold chip, deserialize, stringKeyword. simpl. rewrite Hkind, Hkey, Hvalue.
  destruct (excluded entry) eqn:Hex; simpl.
  - change ("" +:+ serialize serializer v) with (serialize serializer v).
    by rewrite Hinv.
  - rewrite (Hbang eq_refl). by rewrite Hinv.
Qed.

Lemma restoreSelection_insert_fresh (ms : list Matcher.t)
    (old : list Suggestion.t) (matched : gmap string MatchedValue)
    (k : string) (x : MatchedValue) :
  matched !! k = None →
  restoreSelection ms old (<[k := x]> matched) ≡ₚ
    restoreEntries ms old (k, x) ++ restoreSelection ms old matched.
Proof.
  intros Hk. unfold restoreSelection.
  by rewrite (map_to_list_insert matched k x Hk).
Qed.

Lemma restoreSelection_insert_many (ms : list Matcher.t)
    (old : list Suggestion.t) (matched : gmap string MatchedValue)
    (k : string) (l : list string) (kw : string) (m : Matcher.t) :
  matched !! k = Some (Many l) →
  matcherForKeyValue ms k = Some m →
  restoreSelection ms old (<[k := Many (l ++ [kw])]> matched) ≡ₚ
    restoreSelection ms old matched ++ [restoreValue old m kw].
Proof.
  intros Hk Hm.
  rewrite <- insert_delete_eq.
  rewrite restoreSelection_insert_fresh by apply lookup_delete_eq.
  unfold restoreSelection at 2.
  rewrite <- (map_to_list_delete matched k (Many l) Hk).
  change ((k, Many l) :: map_to_list (delete k matched) ≫=
            restoreEntries ms old)
    with (restoreEntries ms old (k, Many l) ++
          restoreSelection ms old (delete k matched)).
  unfold restoreEntries. simpl. rewrite Hm, fmap_app. simpl.
  rewrite <- !app_assoc. apply Permutation_app_head, Permutation_app_comm.
Qed.

(** Every slot of the emitted object was written for an entry of the
    selection, as an array exactly when the entry's matcher is [multiple]. *)
Definition slotsFrom (ms : list Matcher.t)
    (matched : gmap string MatchedValue) (selection : list Suggestion.t)
  : Prop :=
  ∀ k x, matched !! k = Some x →
    ∃ e m, e ∈ selection ∧
           matcherForKey ms (Suggestion.key e) = Some m ∧
           valueKey m = k ∧
           Matcher.multiple m =
             match x with Many _ => true | Single _ => false end.

Lemma slotsFrom_insert (ms : list Matcher.t)
    (matched : gmap string MatchedValue) (selection : list Suggestion.t)
    (entry : Suggestion.t) (m : Matcher.t) (x : MatchedValue) :
  slotsFrom ms matched selection →
  matcherForKey ms (Suggestion.key entry) = Some m →
  Matcher.multiple m = match x with Many _ => true | Single _ => false end →
  slotsFrom ms (<[valueKey m := x]> matched) (selection ++ [entry]).
Proof.
  intros Hinv Hm Hx k y Hk.
  destruct (decide (valueKey m = k)) as [Heq | Hne].
  - rewrite Heq, lookup_insert_eq in Hk. injection Hk as <-.
    exists entry, m. split_and!; [| done..].
    apply elem_of_app. right. apply list_elem_of_singleton. done.
  - rewrite lookup_insert_ne in Hk by done.
    destruct (Hinv k y Hk) as (e & m' & He & Hrest).
    exists e, m'. split; [| done].
    apply elem_of_app. by left.
Qed.

(** Two restorable entries that write the same slot use one matcher, hence
    one key. *)
Lemma restorable_same_slot (ms : list Matcher.t) (e1 e2 : Suggestion.t)
    (m1 m2 : Matcher.t) :
  restorable ms e1 → restorable ms e2 →
  matcherForKey ms (Suggestion.key e1) = Some m1 →
  matcherForKey ms (Suggestion.key e2) = Some m2 →
  valueKey m1 = valueKey m2 →
  m1 = m2 ∧ Suggestion.key e1 = Suggestion.key e2.
Proof.
  intros (m1' & ? & ? & ? & ? & Hm1 & _ & _ & _ & Hback1 & _)
         (m2' & ? & ? & ? & ? & Hm2 & _ & _ & _ & Hback2 & _) Hk1 Hk2 Hvk.
  assert (m1' = m1) as -> by congruence.
  assert (m2' = m2) as -> by congruence.
  assert (m1 = m2) as -> by congruence.
  split; [done |].
  apply matcherForKey_key in Hk1, Hk2. congruence.
Qed.

Lemma restoreSelection_updateMatches_inv (ms : list Matcher.t)
    (oldSelection selection : list Suggestion.t) :
  ownSlots ms →
  Forall (restorable ms) selection →
  NoDup (Suggestion.key <$> filter (λ e, singleValued ms e) selection) →
  ∃ matched : gmap string MatchedValue,
    updateMatches ms selection = Some (matched, selection) ∧
    slotsFrom ms matched selection ∧
    chip <$> restoreSelection ms oldSelection matched ≡ₚ chip <$> selection.
Proof.
  intros Hown.
  induction selection as [| entry selection IH] using rev_ind;
    intros Hall Hnodup.
  { exists ∅. split_and!; [done | | done].
    intros k x Hk. by rewrite lookup_empty in Hk. }
  apply Forall_app in Hall as [Hall Hentry].
  rewrite Forall_singleton in Hentry.
  rewrite filter_app, fmap_app in Hnodup.
  apply NoDup_app in Hnodup as (Hnodup & Hfresh & _).
  destruct (IH Hall Hnodup) as (matched & Hupd & Hslots & Hperm).
  pose proof Hentry as Hentry'. unfold restorable in Hentry'.
  destruct Hentry' as
    (m & validate & serializer & deserializer & v &
     Hm & Hkind & Hvalue & Hvalid & Hback & Hplain & Hinverse).
  set (kw := stringKeyword serializer (excluded entry) v).
  assert (Hkw : truthy kw = true).
  { unfold kw, stringKeyword. destruct (excluded entry); [done |].
    apply truthy_true. by apply Hplain. }
  assert (Htk : transformedKeyword m entry = Some kw).
  { rewrite (transformedKeyword_string m entry validate serializer
               deserializer v Hkind Hvalue).
    fold kw. by rewrite Hvalid, Hkw. }
  assert (Hchip : chip (restoreValue oldSelection m kw) = chip entry).
  { eapply chip_restoreValue; eauto using matcherForKey_key.
    intros Hex. by apply Hplain. }
  (* an earlier entry on the same slot has the same matcher *)
  assert (Hsame : ∀ x, matched !! valueKey m = Some x →
            Matcher.multiple m =
              match x with Many _ => true | Single _ => false end).
  { intros x Hx. destruct (Hslots _ _ Hx) as (e & m' & He & Hm' & Hvk & Hmul).
    rewrite Forall_forall in Hall.
    destruct (restorable_same_slot ms e entry m' m) as [-> _]; auto. }
  assert (Hsingle : Matcher.multiple m = false → matched !! valueKey m = None).
  { intros Hmul. destruct (matched !! valueKey m) as [x |] eqn:Hx; [| done].
    exfalso. destruct (Hslots _ _ Hx) as (e & m' & He & Hm' & Hvk & _).
    rewrite Forall_forall in Hall.
    destruct (restorable_same_slot ms e entry m' m) as [-> Hkey]; auto.
    apply (Hfresh (Suggestion.key entry)).
    - rewrite <- Hkey. apply list_elem_of_fmap_2, list_elem_of_filter.
      split; [| done].
      apply Is_true_true. unfold singleValued. by rewrite Hm', Hmul.
    - apply list_elem_of_fmap_2, list_elem_of_filter.
      split; [| by apply list_elem_of_singleton].
      apply Is_true_true. unfold singleValued. by rewrite Hm, Hmul. }
  rewrite updateMatches_snoc, Hupd. simpl.
  unfold processEntry. rewrite Hm, Htk. simpl.
  rewrite record_own by eauto using ownSlots_matcher.
  destruct (Matcher.multiple m) eqn:Hmul.
  - destruct (matched !! valueKey m) as [[s | l] |] eqn:Hold.
    + by specialize (Hsame _ eq_refl).
    + eexists. split_and!; [done | by apply slotsFrom_insert |].
      rewrite (restoreSelection_insert_many ms oldSelection matched _ l kw m)
        by done.
      rewrite !fmap_app. simpl. by rewrite Hperm, Hchip.
    + eexists. split_and!; [done | by apply slotsFrom_insert |].
      rewrite restoreSelection_insert_fresh by done.
      unfold restoreEntries. simpl. rewrite Hback. simpl.
      rewrite fmap_app. simpl. rewrite Hchip, Hperm.
      apply Permutation_cons_append.
  - specialize (Hsingle eq_refl).
    eexists. split_and!; [done | by apply slotsFrom_insert |].
    rewrite restoreSelection_insert_fresh by done.
    unfold restoreEntries. simpl. rewrite Hback, Hkw. simpl.
    rewrite fmap_app. simpl. rewrite Hchip, Hperm.
    apply Permutation_cons_append.
Qed.


(** The round trip, as the specification words it, fails on a selection that
    holds two entries of a matcher without [multiple]: both are valid, both
    stay in the selection, but the second keyword replaced the first in the
    emitted object, so the first chip is not restored. *)
Lemma restoreSelection_loses_replaced_entry :
  let ms := assetMovementMatchers ["deposit"; "withdrawal"] ["kraken"]
              (λ _, true) (λ s, s) (λ s, s) (λ _, None) in
  let deposit :=
    Suggestion.mk 0 1 false "action" (StringValue "deposit") None in
  let withdrawal :=
    Suggestion.mk 0 1 false "action" (StringValue "withdrawal") None in
  Forall (λ e, ∃ m validate serializer deserializer v,
                 matcherForKey ms (Suggestion.key e) = Some m ∧
                 Matcher.kind m =
                   StringMatcher validate serializer deserializer ∧
                 Suggestion.value e = StringValue v ∧
                 validate v = true ∧
                 ∀ x, deserializeString deserializer
                        (serialize serializer x) = x)
         [deposit; withdrawal] ∧
  ∃ matched,
    updateMatches ms [deposit; withdrawal] =
      Some (matched, [deposit; withdrawal]) ∧
    restoreSelection ms [] matched =
      [Suggestion.mk 0 1 false "action" (StringValue "withdrawal")
                     (Some false)] ∧
    chip deposit ∉ chip <$> restoreSelection ms [] matched.
Proof.
  intros ms deposit withdrawal. split.
  - repeat constructor;
      eexists _, _, None, None, _; split_and!; reflexivity.
  - exists {[ "action" := Single "withdrawal" ]}.
    assert (Hrestored :
      restoreSelection ms [] {[ "action" := Single "withdrawal" ]} =
        [Suggestion.mk 0 1 false "action" (StringValue "withdrawal")
                       (Some false)]) by reflexivity.
    split_and!; [reflexivity | done |].
    rewrite Hrestored. simpl. rewrite list_elem_of_singleton.
    unfold chip. simpl. congruence.
Qed.

(** [restoreSelection] looks matchers up by [keyValue] only: the slot of a
    matcher without [keyValue], which [updateMatches] files under [key],
    is not restored. *)
Lemma restoreSelection_skips_matcher_without_keyValue :
  let notes := Matcher.mk "notes" None false
                 (StringMatcher (λ _, true) None None) in
  let entry := Suggestion.mk 0 1 false "notes" (StringValue "rent") None in
  updateMatches [notes] [entry] =
    Some ({[ "notes" := Single "rent" ]}, [entry]) ∧
  restoreSelection [notes] [] {[ "notes" := Single "rent" ]} = [].
Proof. split; reflexivity. Qed.

(** A value that itself starts with ["!"] comes back as an exclusion. *)
Lemma restoreSelection_misreads_bang_value :
  let notes := Matcher.mk "notes" (Some "notes") false
                 (StringMatcher (λ _, true) None None) in
  let entry := Suggestion.mk 0 1 false "notes" (StringValue "!rent") None in
  updateMatches [notes] [entry] =
    Some ({[ "notes" := Single "!rent" ]}, [entry]) ∧
  restoreSelection [notes] [] {[ "notes" := Single "!rent" ]} =
    [Suggestion.mk 0 1 false "notes" (StringValue "rent") (Some true)].
Proof. split; reflexivity. Qed.

(** C6 (amended). Let no slot of a matcher be a name that objects inherit
    from [Object.prototype]. Let every entry of the selection be a string
    entry whose value passes validation, whose matcher is found back from
    the key it emits under (it has a [keyValue], first of its name), whose
    serialized value, when the entry is not excluded, is neither empty nor
    starts with ["!"], and whose deserializer maps the serialized value back
    to the value; and let no two entries share a matcher without
    [multiple]. Then [updateMatches] keeps the whole selection, and
    restoring from the object it emits yields, up to order, exactly the
    chips of the selection: same keys, values and exclusion flags. *)
Theorem restoreSelection_updateMatches (ms : list Matcher.t)
    (oldSelection selection : list Suggestion.t) :
  ownSlots ms →
  Forall (restorable ms) selection →
  NoDup (Suggestion.key <$> filter (λ e, singleValued ms e) selection) →
  ∃ matched : gmap string MatchedValue,
    updateMatches ms selection = Some (matched, selection) ∧
    chip <$> restoreSelection ms oldSelection matched ≡ₚ chip <$> selection.
Proof.
  intros Hown Hall Hnodup.
  destruct (restoreSelection_updateMatches_inv ms oldSelection selection
              Hown Hall Hnodup) as (matched & Hupd & _ & Hperm).
  by exists matched.
Qed.

Lemma restoreSelection_updateMatches_witness :
  let ms := assetMovementMatchers ["deposit"; "withdrawal"] ["kraken"]
              (λ _, true) (λ s, "ts:" +:+ s)
              (λ s, substring1 (substring1 (substring1 s))) (λ _, None) in
  let selection :=
    [ Suggestion.mk 0 1 false "action" (StringValue "deposit") (Some true);
      Suggestion.mk 0 1 false "start" (StringValue "01/01/2023") None;
      Suggestion.mk 0 1 false "location" (StringValue "kraken") None ] in
  ∃ matched : gmap string MatchedValue,
    updateMatches ms selection = Some (matched, selection) ∧
    chip <$> restoreSelection ms [] matched ≡ₚ chip <$> selection.
Proof.
  intros ms selection.
  apply (restoreSelection_updateMatches ms [] selection).
  - by apply ownSlots_computed.
  - repeat constructor.
    + eexists _, _, None, None, _.
      split_and!; try reflexivity. intros; discriminate.
    + eexists _, _, (Some _), (Some _), _.
      split_and!; try reflexivity. intros; split; [discriminate | reflexivity].
    + eexists _, _, None, None, _.
      split_and!; try reflexivity. intros; split; [discriminate | reflexivity].
  - apply (bool_decide_unpack _). vm_compute. exact I.
Defined.

(** *** Selections built by applyFilter *)

Lemma findIndex_none {A : Type} (pred : A → bool) (l : list A) :
  findIndex pred l < 0 → Forall (λ x, pred x = false) l.
Proof.
  induction l as [| x l IH]; simpl; [by constructor |].
  destruct (pred x) eqn:Hx; [lia |].
  destruct (findIndex pred l <? 0) eqn:Hneg.
  - intros _. constructor; [done |]. apply IH. by apply Z.ltb_lt.
  - apply Z.ltb_ge in Hneg. lia.
Qed.

Lemma singleValued_keys_filter (ms : list Matcher.t) (k : string)
    (selection : list Suggestion.t) :
  Suggestion.key <$>
    filter (λ e, singleValued ms e)
      (filter (λ item, Suggestion.key item ≠ k) selection)
  `sublist_of`
  Suggestion.key <$> filter (λ e, singleValued ms e) selection.
Proof.
  apply fmap_sublist.
  induction selection as [| e selection IH]; [done |].
  rewrite !filter_cons.
  destruct (decide (Suggestion.key e ≠ k)), (decide (singleValued ms e));
    rewrite ?filter_cons; repeat case_decide; try done;
    auto using sublist_skip, sublist_cons.
Qed.

Lemma filter_key_absent (ms : list Matcher.t) (k : string)
    (selection : list Suggestion.t) :
  k ∉ Suggestion.key <$>
        filter (λ e, singleValued ms e)
          (filter (λ item, Suggestion.key item ≠ k) selection).
Proof.
  intros (e & -> & He)%list_elem_of_fmap.
  apply list_elem_of_filter in He as [_ He].
  apply list_elem_of_filter in He as [He _]. done.
Qed.

(** [applyFilter] never leaves two chips of a matcher without
    [multiple]. *)
Lemma applyFilter_keeps_single (ms : list Matcher.t)
    (selection selection' : list Suggestion.t) (newFilter : Suggestion.t) :
  NoDup (Suggestion.key <$> filter (λ e, singleValued ms e) selection) →
  applyFilter ms selection newFilter = Some selection' →
  NoDup (Suggestion.key <$> filter (λ e, singleValued ms e) selection').
Proof.
  intros Hnodup. unfold applyFilter.
  destruct (matcherForKey ms (Suggestion.key newFilter)) as [m |] eqn:Hm;
    simpl; [| done].
  intros [= <-]. rewrite filter_app, fmap_app.
  set (index := findIndex _ selection).
  assert (Hnew :
    filter (λ e, singleValued ms e) [newFilter] =
      if Matcher.multiple m then [] else [newFilter]).
  { assert (Hsv : singleValued ms newFilter = negb (Matcher.multiple m))
      by (unfold singleValued; by rewrite Hm).
    rewrite filter_cons, filter_nil.
    destruct (Matcher.multiple m); case_decide as Hdec; try done;
      rewrite Hsv in Hdec; simpl in Hdec; done. }
  rewrite Hnew.
  destruct (Matcher.multiple m) eqn:Hmul; simpl.
  - rewrite app_nil_r.
    destruct (_ && _); [| done].
    eapply sublist_NoDup; [exact Hnodup | apply singleValued_keys_filter].
  - rewrite andb_true_r.
    destruct (0 <=? index) eqn:Hindex.
    + apply NoDup_app. split_and!.
      * eapply sublist_NoDup; [exact Hnodup | apply singleValued_keys_filter].
      * intros k Hk Hin. apply list_elem_of_singleton in Hin as ->.
        by apply filter_key_absent in Hk.
      * apply NoDup_singleton.
    + apply NoDup_app. split_and!; [done | | apply NoDup_singleton].
      intros k (e & -> & He)%list_elem_of_fmap Hin.
      apply list_elem_of_singleton in Hin.
      apply list_elem_of_filter in He as [_ He].
      apply Z.leb_gt in Hindex. apply findIndex_none in Hindex.
      rewrite Forall_forall in Hindex. specialize (Hindex e He).
      simpl in Hindex. apply bool_decide_eq_false in Hindex. done.
Qed.

(** [findIndex] and [find] name the same element. *)
Lemma findIndex_find {A : Type} (pred : A → bool) (l : list A) :
  match find pred l with
  | Some x => 0 ≤ findIndex pred l ∧ l !! Z.to_nat (findIndex pred l) = Some x
  | None => findIndex pred l = -1
  end.
Proof.
  induction l as [| y l IH]; simpl; [done |].
  destruct (pred y); [done |].
  destruct (find pred l) as [x |].
  - destruct IH as [Hge Hx].
    replace (findIndex pred l <? 0) with false
      by (symmetry; apply Z.ltb_ge; lia).
    split; [lia |].
    replace (Z.to_nat (findIndex pred l + 1))
      with (S (Z.to_nat (findIndex pred l))) by lia.
    done.
  - by rewrite IH.
Qed.

Lemma filter_other_keys (k : string) (selection : list Suggestion.t) :
  find (λ item, bool_decide (Suggestion.key item = k)) selection = None →
  filter (λ item, Suggestion.key item ≠ k) selection = selection.
Proof.
  induction selection as [| item selection IH]; simpl; [done |].
  case_bool_decide as Hkey; [done |]. intros Hnone.
  by rewrite filter_cons_True, IH.
Qed.



(** A [multiple] matcher keeps its chips, unless the new chip turns an
    inclusion into an exclusion. *)
Example applyFilter_multiple :
  let ms := [ Matcher.mk "protocol" (Some "protocols") true
                (StringMatcher (λ _, true) None None) ] in
  let aave :=
    Suggestion.mk 0 1 false "protocol" (StringValue "aave") (Some false) in
  let curve :=
    Suggestion.mk 0 1 false "protocol" (StringValue "curve") (Some false) in
  let notCurve :=
    Suggestion.mk 0 1 false "protocol" (StringValue "curve") (Some true) in
  applyFilter ms [aave] curve = Some [aave; curve] ∧
  applyFilter ms [aave] notCurve = Some [notCurve].
Proof. split; reflexivity. Qed.

(** *** What updateMatches retains *)

(** The entry passes every [continue] of the loop. *)
Definition kept (ms : list Matcher.t) (entry : Suggestion.t) : bool :=
  match matcherForKey ms (Suggestion.key entry) with
  | Some m =>
      match transformedKeyword m entry with
      | Some _ => true
      | None => false
      end
  | None => false
  end.

Lemma processEntry_not_kept (ms : list Matcher.t) (entry : Suggestion.t)
    (acc : gmap string MatchedValue * list Suggestion.t) :
  kept ms entry = false → processEntry ms entry acc = Some acc.
Proof.
  unfold kept, processEntry. intros H. by repeat case_match.
Qed.

Lemma processEntry_kept (ms : list Matcher.t) (entry : Suggestion.t)
    (acc acc' : gmap string MatchedValue * list Suggestion.t) :
  kept ms entry = true → processEntry ms entry acc = Some acc' →
  acc'.2 = acc.2 ++ [entry].
Proof.
  unfold kept, processEntry. intros H Hacc.
  repeat case_match; simplify_eq.
  destruct (record _ _ _); simplify_eq/=. done.
Qed.

Lemma updateMatches_from_kept (ms : list Matcher.t) (pairs : list Suggestion.t)
    (acc acc' : gmap string MatchedValue * list Suggestion.t) :
  updateMatches_from ms pairs acc = Some acc' →
  acc'.2 = acc.2 ++ filter (λ e, kept ms e) pairs ∧
  updateMatches_from ms (filter (λ e, kept ms e) pairs) acc = Some acc'.
Proof.
  revert acc. induction pairs as [| e pairs IH]; intros acc; simpl.
  { intros [= <-]. by rewrite app_nil_r. }
  destruct (processEntry ms e acc) as [acc1 |] eqn:He; simpl; [| done].
  intros Hrest. destruct (IH _ Hrest) as [Hsel Hagain].
  destruct (kept ms e) eqn:Hkept.
  - rewrite filter_cons_True by (by rewrite Hkept).
    simpl. rewrite He. simpl. split; [| done].
    rewrite Hsel, (processEntry_kept ms e acc acc1 Hkept He).
    by rewrite <- app_assoc.
  - rewrite filter_cons_False by (rewrite Hkept; simpl; tauto).
    rewrite processEntry_not_kept in He by done. by simplify_eq.
Qed.

(** X4. When [updateMatches] returns, the selection it sets holds exactly
    the entries of its argument that pass the loop (a matcher of their key,
    a value of the right type that passes [validate], a keyword that is not
    empty), in their order; and running it again on that selection emits the
    same object and sets the same selection. *)
Theorem updateMatches_retains (ms : list Matcher.t)
    (pairs selection : list Suggestion.t)
    (matched : gmap string MatchedValue) :
  updateMatches ms pairs = Some (matched, selection) →
  selection = filter (λ e, kept ms e) pairs ∧
  updateMatches ms selection = Some (matched, selection).
Proof.
  intros H. apply updateMatches_from_kept in H as [Hsel Hagain].
  simpl in Hsel. subst selection. split; [done | exact Hagain].
Qed.

Lemma updateMatches_retains_witness :
  let ms := [ Matcher.mk "location" (Some "location") false
                (StringMatcher (λ v, bool_decide (v = "kraken")) None None) ] in
  let kraken := Suggestion.mk 0 1 false "location" (StringValue "kraken") None in
  let other := Suggestion.mk 0 1 false "location" (StringValue "moon") None in
  [kraken] = filter (λ e, kept ms e) [other; kraken] ∧
  updateMatches ms [kraken] =
    Some ({[ "location" := Single "kraken" ]}, [kraken]).
Proof.
  intros ms kraken other.
  apply (updateMatches_retains ms [other; kraken] [kraken]
           {[ "location" := Single "kraken" ]}).
  reflexivity.
Defined.

(** *** The slots of the emitted object *)

Lemma record_slots (m : Matcher.t) (kw : string)
    (matched matched' : gmap string MatchedValue) (k : string) :
  valueKey m ∉ objectPrototypeNames →
  record m kw matched = Some matched' →
  (is_Some (matched' !! k) ↔ k = valueKey m ∨ is_Some (matched !! k)).
Proof.
  intros Hown. rewrite record_own by done. intros H.
  repeat case_match; simplify_eq;
    (destruct (decide (valueKey m = k)) as [<- | Hne];
     [rewrite lookup_insert_eq; split; eauto
     | rewrite lookup_insert_ne by done; split;
       [by right | by intros [-> |]]]).
Qed.

(** The slots of [acc.1] are those of the matchers of the entries of
    [acc.2]. *)
Definition slotsOfSelection (ms : list Matcher.t)
    (acc : gmap string MatchedValue * list Suggestion.t) : Prop :=
  ∀ k, is_Some (acc.1 !! k) ↔
       ∃ e m, e ∈ acc.2 ∧ matcherForKey ms (Suggestion.key e) = Some m ∧
              valueKey m = k.

Lemma processEntry_slots (ms : list Matcher.t) (entry : Suggestion.t)
    (acc acc' : gmap string MatchedValue * list Suggestion.t) :
  ownSlots ms →
  slotsOfSelection ms acc → processEntry ms entry acc = Some acc' →
  slotsOfSelection ms acc'.
Proof.
  intros Hown Hinv. unfold processEntry.
  destruct (matcherForKey ms (Suggestion.key entry)) as [m |] eqn:Hm;
    [| by intros [= <-]].
  destruct (transformedKeyword m entry) as [kw |]; [| by intros [= <-]].
  destruct (record m kw acc.1) as [matched' |] eqn:Hrec; simpl; [| done].
  intros [= <-] k. simpl.
  rewrite (record_slots _ _ _ _ k (ownSlots_matcher _ _ _ Hown Hm) Hrec),
    (Hinv k).
  split.
  - intros [-> | (e & m' & He & Hm' & Hk)].
    + exists entry, m. rewrite elem_of_app, list_elem_of_singleton. eauto.
    + exists e, m'. rewrite elem_of_app. eauto.
  - intros (e & m' & He & Hm' & Hk).
    apply elem_of_app in He as [He | ->%list_elem_of_singleton].
    + right. eauto.
    + left. by simplify_eq.
Qed.

Lemma updateMatches_from_slots (ms : list Matcher.t)
    (pairs : list Suggestion.t)
    (acc acc' : gmap string MatchedValue * list Suggestion.t) :
  ownSlots ms →
  slotsOfSelection ms acc → updateMatches_from ms pairs acc = Some acc' →
  slotsOfSelection ms acc'.
Proof.
  intros Hown. revert acc.
  induction pairs as [| e pairs IH]; intros acc Hinv; simpl.
  - by intros [= <-].
  - destruct (processEntry ms e acc) as [acc1 |] eqn:He; simpl; [| done].
    apply IH. by eapply processEntry_slots.
Qed.

Lemma slotsOfSelection_empty (ms : list Matcher.t) :
  slotsOfSelection ms (∅, []).
Proof.
  intros k. simpl. rewrite lookup_empty. split.
  - by intros [? ?].
  - intros (e & _ & He & _). by apply elem_of_nil in He.
Qed.




(** *** The keywords of the emitted object *)

(** A slot holds a keyword that is not empty, or an array that is not empty
    of such keywords. *)
Definition keywordsTruthy (matched : gmap string MatchedValue) : Prop :=
  ∀ k v, matched !! k = Some v →
    match v with
    | Single s => s ≠ ""
    | Many keywords => keywords ≠ [] ∧ Forall (λ s, s ≠ "") keywords
    end.

Lemma record_keywordsTruthy (m : Matcher.t) (kw : string)
    (matched matched' : gmap string MatchedValue) :
  kw ≠ "" → keywordsTruthy matched →
  record m kw matched = Some matched' → keywordsTruthy matched'.
Proof.
  intros Hkw Hinv Hrec k v Hk. unfold record in Hrec.
  assert (Hins : ∀ new,
    match new with
    | Single s => s ≠ ""
    | Many keywords => keywords ≠ [] ∧ Forall (λ s, s ≠ "") keywords
    end →
    matched' = <[valueKey m := new]> matched →
    match v with
    | Single s => s ≠ ""
    | Many keywords => keywords ≠ [] ∧ Forall (λ s, s ≠ "") keywords
    end).
  { intros new Hnew ->. destruct (decide (valueKey m = k)) as [Heq | Hne].
    - rewrite Heq, lookup_insert_eq in Hk. by simplify_eq.
    - rewrite lookup_insert_ne in Hk by done. exact (Hinv _ _ Hk). }
  destruct (Matcher.multiple m).
  - destruct (matched !! valueKey m) as [[s | previous] |] eqn:Hslot.
    + destruct (truthy s); [done |]. simplify_eq.
      apply (Hins (Many [kw])); [| done].
      split; [done | by apply Forall_singleton].
    + simplify_eq. apply (Hins (Many (previous ++ [kw]))); [| done].
      destruct (Hinv _ _ Hslot) as [_ Hall].
      split; [by intros [? ?]%app_eq_nil |].
      apply Forall_app. split; [done | by apply Forall_singleton].
    + case_bool_decide; simplify_eq. apply (Hins (Many [kw])); [| done].
      split; [done | by apply Forall_singleton].
  - case_bool_decide; simplify_eq.
    + exact (Hinv _ _ Hk).
    + by apply (Hins (Single kw)).
Qed.

Lemma updateMatches_from_keywordsTruthy (ms : list Matcher.t)
    (pairs : list Suggestion.t)
    (acc acc' : gmap string MatchedValue * list Suggestion.t) :
  keywordsTruthy acc.1 → updateMatches_from ms pairs acc = Some acc' →
  keywordsTruthy acc'.1.
Proof.
  revert acc. induction pairs as [| e pairs IH]; intros acc Hinv; simpl.
  { by intros [= <-]. }
  destruct (processEntry ms e acc) as [acc1 |] eqn:He; simpl; [| done].
  apply IH. unfold processEntry in He.
  destruct (matcherForKey ms (Suggestion.key e)) as [m |];
    [| by simplify_eq].
  destruct (transformedKeyword m e) as [kw |] eqn:Hkw; [| by simplify_eq].
  destruct (record m kw acc.1) as [matched' |] eqn:Hrec; simplify_eq/=.
  eapply record_keywordsTruthy; [| done..].
  by apply truthy_true, (transformedKeyword_truthy m e).
Qed.

(** X6. When [updateMatches] returns, no slot of the emitted object holds
    an empty keyword: a string slot is not empty, and an array slot is not
    empty and holds no empty string. *)
Theorem updateMatches_keywords (ms : list Matcher.t)
    (pairs selection : list Suggestion.t)
    (matched : gmap string MatchedValue) :
  updateMatches ms pairs = Some (matched, selection) → keywordsTruthy matched.
Proof.
  intros H.
  apply (updateMatches_from_keywordsTruthy ms pairs (∅, []) _) in H;
    [done |].
  intros k v Hk. simpl in Hk. by rewrite lookup_empty in Hk.
Qed.

Lemma updateMatches_keywords_witness :
  keywordsTruthy
    ({[ "location" := Many ["kraken"; "!binance"] ]}
       : gmap string MatchedValue).
Proof.
  apply (updateMatches_keywords
           [ Matcher.mk "location" None true
               (StringMatcher (λ _, true) None None) ]
           [ Suggestion.mk 0 1 false "location" (StringValue "kraken") None;
             Suggestion.mk 0 1 false "location" (StringValue "")
                           (Some false);
             Suggestion.mk 0 1 false "location" (StringValue "binance")
                           (Some true) ]
           [ Suggestion.mk 0 1 false "location" (StringValue "kraken") None;
             Suggestion.mk 0 1 false "location" (StringValue "binance")
                           (Some true) ]).
  reflexivity.
Defined.

(** *** When updateMatches raises *)

(** The matchers that share a slot agree on [multiple]. *)
Definition coherent (ms : list Matcher.t) : Prop :=
  ∀ m1 m2, m1 ∈ ms → m2 ∈ ms → valueKey m1 = valueKey m2 →
           Matcher.multiple m1 = Matcher.multiple m2.

(** A string slot was written for a matcher without [multiple]. *)
Definition singleSlots (ms : list Matcher.t)
    (matched : gmap string MatchedValue) : Prop :=
  ∀ k s, matched !! k = Some (Single s) →
         ∃ m, m ∈ ms ∧ valueKey m = k ∧ Matcher.multiple m = false.

Lemma matcherForKey_elem_of (ms : list Matcher.t) (k : string)
    (m : Matcher.t) :
  matcherForKey ms k = Some m → m ∈ ms.
Proof.
  intros H. apply find_some in H as [H _]. by apply list_elem_of_In.
Qed.

Lemma record_coherent (ms : list Matcher.t) (m : Matcher.t) (kw : string)
    (matched : gmap string MatchedValue) :
  ownSlots ms → coherent ms → m ∈ ms → singleSlots ms matched →
  ∃ matched', record m kw matched = Some matched' ∧ singleSlots ms matched'.
Proof.
  intros Hown Hco Hm Hinv.
  rewrite record_own
    by (unfold ownSlots in Hown; rewrite Forall_forall in Hown; auto).
  destruct (Matcher.multiple m) eqn:Hmul.
  - destruct (matched !! valueKey m) as [[s | previous] |] eqn:Hslot.
    + destruct (Hinv _ _ Hslot) as (m' & Hm' & Hk & Hmul').
      specialize (Hco m' m Hm' Hm Hk). congruence.
    + eexists. split; [done |]. intros k s Hk.
      destruct (decide (valueKey m = k)) as [<- | Hne];
        [by rewrite lookup_insert_eq in Hk
        | rewrite lookup_insert_ne in Hk by done; eauto].
    + eexists. split; [done |]. intros k s Hk.
      destruct (decide (valueKey m = k)) as [<- | Hne];
        [by rewrite lookup_insert_eq in Hk
        | rewrite lookup_insert_ne in Hk by done; eauto].
  - eexists. split; [done |]. intros k s Hk.
    destruct (decide (valueKey m = k)) as [<- | Hne];
      [eauto | rewrite lookup_insert_ne in Hk by done; eauto].
Qed.

Lemma updateMatches_from_coherent (ms : list Matcher.t)
    (pairs : list Suggestion.t)
    (acc : gmap string MatchedValue * list Suggestion.t) :
  ownSlots ms → coherent ms → singleSlots ms acc.1 →
  is_Some (updateMatches_from ms pairs acc).
Proof.
  intros Hown Hco. revert acc.
  induction pairs as [| e pairs IH]; intros acc Hinv; simpl; [done |].
  unfold processEntry.
  destruct (matcherForKey ms (Suggestion.key e)) as [m |] eqn:Hm;
    simpl; [| by apply IH].
  destruct (transformedKeyword m e) as [kw |]; simpl; [| by apply IH].
  destruct (record_coherent ms m kw acc.1 Hown Hco
              (matcherForKey_elem_of _ _ _ Hm) Hinv)
    as (matched' & -> & Hinv').
  simpl. by apply IH.
Qed.

(** X7. [updateMatches] raises on no selection at all when the matchers
    that share a slot ([keyValue], or [key] without one) agree on
    [multiple], and no slot is a name of [Object.prototype]: the [push] on
    a string needs a slot written by a matcher without [multiple] and read
    by one with it. *)
Theorem updateMatches_never_raises (ms : list Matcher.t)
    (pairs : list Suggestion.t) :
  ownSlots ms → coherent ms → is_Some (updateMatches ms pairs).
Proof.
  intros Hown Hco. apply updateMatches_from_coherent; [done | done |].
  intros k s Hk. simpl in Hk. by rewrite lookup_empty in Hk.
Qed.


Lemma coherent_no_multiple (ms : list Matcher.t) :
  Forall (λ m, Matcher.multiple m = false) ms → coherent ms.
Proof.
  rewrite Forall_forall. intros Hall m1 m2 H1 H2 _.
  by rewrite (Hall m1 H1), (Hall m2 H2).
Qed.

Lemma updateMatches_never_raises_witness :
  is_Some
    (updateMatches
       (assetMovementMatchers ["deposit"; "withdrawal"] ["kraken"]
          (λ _, true) (λ date, date) (λ date, date) (λ _, None))
       [ Suggestion.mk 0 1 false "action" (StringValue "deposit") None;
         Suggestion.mk 0 1 false "location" (StringValue "kraken") None ]).
Proof.
  apply (updateMatches_never_raises
           (assetMovementMatchers ["deposit"; "withdrawal"] ["kraken"]
              (λ _, true) (λ date, date) (λ date, date) (λ _, None))).
  - repeat constructor; apply (bool_decide_unpack _); vm_compute; exact I.
  - apply coherent_no_multiple. repeat constructor.
Defined.

(** Without a [multiple] matcher every slot is a string. *)
Lemma updateMatches_from_singles (ms : list Matcher.t)
    (pairs : list Suggestion.t)
    (acc acc' : gmap string MatchedValue * list Suggestion.t) :
  Forall (λ m, Matcher.multiple m = false) ms →
  (∀ k v, acc.1 !! k = Some v → ∃ s, v = Single s) →
  updateMatches_from ms pairs acc = Some acc' →
  ∀ k v, acc'.1 !! k = Some v → ∃ s, v = Single s.
Proof.
  rewrite Forall_forall. intros Hall. revert acc.
  induction pairs as [| e pairs IH]; intros acc Hinv; simpl.
  { by intros [= <-]. }
  destruct (processEntry ms e acc) as [acc1 |] eqn:He; simpl; [| done].
  apply IH. unfold processEntry in He.
  destruct (matcherForKey ms (Suggestion.key e)) as [m |] eqn:Hm;
    [| by simplify_eq].
  destruct (transformedKeyword m e) as [kw |]; [| by simplify_eq].
  unfold record in He.
  rewrite (Hall m (matcherForKey_elem_of _ _ _ Hm)) in He.
  case_bool_decide; simplify_eq/=; [done |]. intros k v Hk.
  destruct (decide (valueKey m = k)) as [<- | Hne].
  - rewrite lookup_insert_eq in Hk. simplify_eq. eauto.
  - rewrite lookup_insert_ne in Hk by done. eauto.
Qed.

Section AssetMovementMatches.
Variables (movementCategories associatedLocations : list string).
Variables (dateValidator : string → bool).
Variables (dateSerializer dateDeserializer : string → string).
Variable (assetDeserializer : string → option AssetInfo).

(** X8. With the matchers of the asset movement filter, [updateMatches]
    returns on every selection, and the object it emits holds nothing but
    strings that are not empty, under keys among [asset], [action],
    [fromTimestamp], [toTimestamp] and [location]: the keys of the
    filter's route schema, each an optional string. *)
Theorem assetMovement_matches (pairs : list Suggestion.t) :
  let matchers :=
    assetMovementMatchers movementCategories associatedLocations
      dateValidator dateSerializer dateDeserializer assetDeserializer in
  ∃ matched selection,
    updateMatches matchers pairs = Some (matched, selection) ∧
    ∀ k v, matched !! k = Some v →
      k ∈ ["asset"; "action"; "fromTimestamp"; "toTimestamp"; "location"] ∧
      ∃ s, v = Single s ∧ s ≠ "".
Proof.
  intros matchers.
  assert (Hnone : Forall (λ m, Matcher.multiple m = false) matchers)
    by repeat constructor.
  assert (Hown : ownSlots matchers) by (by apply ownSlots_computed).
  destruct (updateMatches_from_coherent matchers pairs (∅, []) Hown
              (coherent_no_multiple _ Hnone)) as [[matched selection] Hrun].
  { intros k s Hk. simpl in Hk. by rewrite lookup_empty in Hk. }
  exists matched, selection. split; [exact Hrun |].
  intros k v Hk. split.
  - pose proof (updateMatches_from_slots matchers pairs (∅, []) _ Hown
                  (slotsOfSelection_empty matchers) Hrun k) as [Hslot _].
    destruct Hslot as (e & m & _ & Hm & <-); [by eexists |].
    apply matcherForKey_elem_of in Hm.
    subst matchers. unfold assetMovementMatchers in Hm.
    repeat (apply elem_of_cons in Hm as [-> | Hm];
            [unfold valueKey; simpl; set_solver |]).
    by apply elem_of_nil in Hm.
  - assert (Hempty : ∀ k' v', (∅ : gmap string MatchedValue) !! k' = Some v' →
                               ∃ s, v' = Single s).
    { intros k' v' Hk'. by rewrite lookup_empty in Hk'. }
    destruct (updateMatches_from_singles matchers pairs (∅, []) _ Hnone
                Hempty Hrun k v Hk) as [s ->].
    exists s. split; [done |].
    apply (updateMatches_from_keywordsTruthy matchers pairs (∅, []) _) in Hrun.
    + exact (Hrun k _ Hk).
    + intros k' v' Hk'. simpl in Hk'. by rewrite lookup_empty in Hk'.
Qed.

End AssetMovementMatches.


(** *** Asset chips *)

(** An object with one string slot restores the values of that slot. *)
Lemma restoreSelection_single_slot (ms : list Matcher.t)
    (old : list Suggestion.t) (k value : string) (m : Matcher.t) :
  matcherForKeyValue ms k = Some m → value ≠ "" →
  restoreSelection ms old {[ k := Single value ]} = [restoreValue old m value].
Proof.
  intros Hm Hvalue. unfold restoreSelection.
  rewrite map_to_list_singleton. simpl.
  unfold restoreEntries. simpl. rewrite Hm.
  apply truthy_true in Hvalue. rewrite Hvalue. done.
Qed.

(** With a chip of its key in the selection, an asset matcher restores that
    chip's value. *)
Lemma restoreValue_asset (old : list Suggestion.t) (m : Matcher.t)
    (previous : Suggestion.t) (value : string) :
  isAsset m = true →
  find (λ s, bool_decide (Suggestion.key s = Matcher.key m)) old
    = Some previous →
  valueTruthy (Suggestion.value previous) = true →
  restoreValue old m value =
    Suggestion.mk 0 1 true (Matcher.key m) (Suggestion.value previous)
                  (Some false).
Proof.
  intros Hasset Hfind Htruthy.
  unfold restoreValue. by rewrite Hasset, Hfind, Htruthy.
Qed.

(** X9. When the selection already holds a chip of an asset matcher, whose
    value is not an empty string, [restoreSelection] rebuilds the chip of
    that matcher's slot from the value of the first such chip, not excluded,
    whatever identifier the slot of [matches] carries: the deserializer is
    not called and the identifier is not read. *)
Theorem restoreSelection_asset_previous (ms : list Matcher.t)
    (old : list Suggestion.t) (k identifier : string) (m : Matcher.t)
    (previous : Suggestion.t) :
  matcherForKeyValue ms k = Some m → isAsset m = true → identifier ≠ "" →
  find (λ s, bool_decide (Suggestion.key s = Matcher.key m)) old
    = Some previous →
  valueTruthy (Suggestion.value previous) = true →
  restoreSelection ms old {[ k := Single identifier ]} =
    [ Suggestion.mk 0 1 true (Matcher.key m) (Suggestion.value previous)
                    (Some false) ].
Proof.
  intros Hm Hasset Hid Hfind Htruthy.
  rewrite (restoreSelection_single_slot ms old k identifier m) by done.
  by rewrite (restoreValue_asset old m previous).
Qed.

Lemma restoreSelection_asset_previous_witness :
  let ms := [ Matcher.mk "asset" (Some "asset") false (AssetMatcher None) ] in
  let eth := {| identifier := "ETH"; name := "Ethereum"; symbol := "ETH";
                isCustomAsset := false |} in
  restoreSelection ms
    [ Suggestion.mk 0 1 true "asset" (AssetValue eth) None ]
    {[ "asset" := Single "BTC" ]} =
    [ Suggestion.mk 0 1 true "asset" (AssetValue eth) (Some false) ].
Proof.
  intros ms eth.
  apply (restoreSelection_asset_previous ms
           [ Suggestion.mk 0 1 true "asset" (AssetValue eth) None ]
           "asset" "BTC"
           (Matcher.mk "asset" (Some "asset") false (AssetMatcher None))
           (Suggestion.mk 0 1 true "asset" (AssetValue eth) None));
    done.
Defined.

(** X10. A selection of one asset chip goes through [updateMatches] and
    back through [restoreSelection]: for a matcher without [multiple] that
    is found back from its slot, and an asset whose identifier is not empty,
    [updateMatches] emits the identifier alone and retains the chip, and
    [restoreSelection] then rebuilds a chip of the same key with the same
    asset, not excluded. The slots of the matchers are not names of
    [Object.prototype]. *)
Theorem restoreSelection_updateMatches_asset (ms : list Matcher.t)
    (m : Matcher.t) (entry : Suggestion.t) (a : AssetInfo) :
  ownSlots ms →
  matcherForKey ms (Suggestion.key entry) = Some m →
  isAsset m = true → Matcher.multiple m = false →
  matcherForKeyValue ms (valueKey m) = Some m →
  Suggestion.value entry = AssetValue a → identifier a ≠ "" →
  updateMatches ms [entry] =
    Some ({[ valueKey m := Single (identifier a) ]}, [entry]) ∧
  chip <$> restoreSelection ms [entry]
             {[ valueKey m := Single (identifier a) ]} =
    [(Suggestion.key entry, AssetValue a, false)].
Proof.
  intros Hown Hm Hasset Hmul Hback Hvalue Hid.
  pose proof (matcherForKey_key _ _ _ Hm) as Hkey.
  split.
  - unfold updateMatches. simpl. unfold processEntry. rewrite Hm.
    unfold transformedKeyword, isAsset in *. rewrite Hvalue.
    destruct (Matcher.kind m); [done |].
    apply truthy_true in Hid. rewrite Hid. simpl.
    rewrite record_own by eauto using ownSlots_matcher.
    rewrite Hmul. simpl. by rewrite insert_empty.
  - rewrite (restoreSelection_single_slot ms [entry] _ _ m) by done.
    rewrite (restoreValue_asset [entry] m entry).
    + unfold chip, excluded. simpl. by rewrite Hkey, Hvalue.
    + done.
    + simpl. rewrite Hkey. by rewrite bool_decide_eq_true_2.
    + by rewrite Hvalue.
Qed.

Lemma restoreSelection_updateMatches_asset_witness :
  let m := Matcher.mk "asset" (Some "asset") false (AssetMatcher None) in
  let eth := {| identifier := "ETH"; name := "Ethereum"; symbol := "ETH";
                isCustomAsset := false |} in
  let entry := Suggestion.mk 0 1 true "asset" (AssetValue eth) None in
  updateMatches [m] [entry] =
    Some ({[ valueKey m := Single (identifier eth) ]}, [entry]) ∧
  chip <$> restoreSelection [m] [entry]
             {[ valueKey m := Single (identifier eth) ]} =
    [(Suggestion.key entry, AssetValue eth, false)].
Proof.
  intros m eth entry.
  apply (restoreSelection_updateMatches_asset [m] m entry eth); try done.
  repeat constructor. apply (bool_decide_unpack _). vm_compute. exact I.
Defined.

(** *** Moving through the suggestions *)

(** [moveSuggestion(up)]: the new [selectedSuggestion]. [total] is the
    [total] of the suggested filter when a matcher is selected, the number
    of filtered matchers otherwise. *)
Definition moveSuggestion (total selectedSuggestion : Z) (up : bool) : Z :=
  let move := if up then -1 else 1 in
  let position := selectedSuggestion + move in
  if total <=? position then 0
  else if position <? 0 then total - 1
  else position.

(** X11. With at least one suggestion and a selected index within them,
    [moveSuggestion] stays within the suggestions, wrapping from the last
    to the first and from the first to the last, and moving up undoes
    moving down, and the reverse. *)
Theorem moveSuggestion_wraps (total position : Z) :
  0 < total → 0 ≤ position < total →
  (∀ up, 0 ≤ moveSuggestion total position up < total) ∧
  moveSuggestion total (total - 1) false = 0 ∧
  moveSuggestion total 0 true = total - 1 ∧
  moveSuggestion total (moveSuggestion total position false) true = position ∧
  moveSuggestion total (moveSuggestion total position true) false = position.
Proof.
  intros Htotal Hposition. unfold moveSuggestion.
  split_and!; [intros [] | ..]; simpl;
    repeat match goal with
           | |- context [if ?c then _ else _] =>
               lazymatch c with
               | context [if _ then _ else _] => fail
               | _ => destruct c eqn:?
               end
           end;
    rewrite ?Z.leb_le, ?Z.leb_gt, ?Z.ltb_lt, ?Z.ltb_ge in *; lia.
Qed.

Lemma moveSuggestion_wraps_witness :
  (∀ up, 0 ≤ moveSuggestion 5 4 up < 5) ∧
  moveSuggestion 5 (5 - 1) false = 0 ∧
  moveSuggestion 5 0 true = 5 - 1 ∧
  moveSuggestion 5 (moveSuggestion 5 4 false) true = 4 ∧
  moveSuggestion 5 (moveSuggestion 5 4 true) false = 4.
Proof. apply (moveSuggestion_wraps 5 4); lia. Defined.



End TableFilter.

(** ** Backup manager (the component around [setupBackupInfo] and
       [setupBackupActions]) *)

Module BackupManager.

(** *** The types of '@/types/backup' *)

Module UserDbBackup.
Record t := mk { version : Z; time : Z; size : Z }.
End UserDbBackup.

Module UserDbInfo.
Record t := mk { filepath : string; size : Z; version : Z }.
End UserDbInfo.

Record UserDb := {
  info : UserDbInfo.t;
  backups : list UserDbBackup.t
}.

Record GlobalDb := {
  globaldbAssetsVersion : Z;
  globaldbSchemaVersion : Z
}.

Record DatabaseInfo := {
  globaldb : GlobalDb;
  userdb : UserDb
}.

(** The payload of [notify]. *)
Module Notification.
Record t := mk {
  display : bool;
  severity : option string;
  title : string;
  message : string
}.
End Notification.

(** The refs of the component, the notifications raised through the
    store's [notify] and the errors passed to [logger.error]. *)
Record State := {
  backupInfo : option DatabaseInfo;
  loading : bool;
  saving : bool;
  selected : list UserDbBackup.t;
  notifications : list Notification.t;
  logged : list Exception
}.

Definition isSameEntry (firstDb secondDb : UserDbBackup.t) : bool :=
  (UserDbBackup.version firstDb =? UserDbBackup.version secondDb) &&
  (UserDbBackup.time firstDb =? UserDbBackup.time secondDb) &&
  (UserDbBackup.size firstDb =? UserDbBackup.size secondDb).

(** Equality of two entries in the words of the specification: same
    version, same time and same size. *)
Definition sameVersionTimeSize (a b : UserDbBackup.t) : Prop :=
  UserDbBackup.version a = UserDbBackup.version b ∧
  UserDbBackup.time a = UserDbBackup.time b ∧
  UserDbBackup.size a = UserDbBackup.size b.

#[global] Instance sameVersionTimeSize_dec (a b : UserDbBackup.t) :
  Decision (sameVersionTimeSize a b).
Proof. unfold sameVersionTimeSize. apply _. Defined.

(** [info.userdb.backups.splice(index, 1)] on the shallow copy [info]; the
    array is shared with the object that [set(backupInfo, info)] replaces. *)
Definition spliceBackup (index : Z) (i : DatabaseInfo) : DatabaseInfo :=
  {| globaldb := globaldb i;
     userdb := {| info := info (userdb i);
                  backups := splice1 index (backups (userdb i)) |} |}.

(** The computed [backups]. *)
Definition backupsOf (st : State) : list UserDbBackup.t :=
  match backupInfo st with
  | Some i => backups (userdb i)
  | None => []
  end.

(** [filepath.lastIndexOf(c)], counted from the start of [s]. *)
Fixpoint lastIndexOf (c : ascii) (s : string) : Z :=
  match s with
  | EmptyString => -1
  | String c' rest =>
      let i := lastIndexOf c rest in
      if 0 <=? i then i + 1
      else if bool_decide (c' = c) then 0 else -1
  end.

(** The computed [directory]. *)
Definition directory (st : State) : string :=
  match backupInfo st with
  | None => ""
  | Some i =>
      let filepath := UserDbInfo.filepath (info (userdb i)) in
      let index := lastIndexOf "/" filepath in
      let index := if index =? -1 then lastIndexOf "\" filepath else index in
      String.substring 0 (Z.to_nat (index + 1)) filepath
  end.

Definition setBackupInfo (v : option DatabaseInfo) (st : State) : State :=
  {| backupInfo := v; loading := loading st; saving := saving st;
     selected := selected st; notifications := notifications st;
     logged := logged st |}.

Definition setLoading (v : bool) (st : State) : State :=
  {| backupInfo := backupInfo st; loading := v; saving := saving st;
     selected := selected st; notifications := notifications st;
     logged := logged st |}.

Definition setSaving (v : bool) (st : State) : State :=
  {| backupInfo := backupInfo st; loading := loading st; saving := v;
     selected := selected st; notifications := notifications st;
     logged := logged st |}.

Definition setSelected (v : list UserDbBackup.t) (st : State) : State :=
  {| backupInfo := backupInfo st; loading := loading st; saving := saving st;
     selected := v; notifications := notifications st;
     logged := logged st |}.

Definition notify (n : Notification.t) : Handler State unit :=
  update (λ st,
    {| backupInfo := backupInfo st; loading := loading st;
       saving := saving st; selected := selected st;
       notifications := notifications st ++ [n];
       logged := logged st |}).

Definition loggerError (e : Exception) : Handler State unit :=
  update (λ st,
    {| backupInfo := backupInfo st; loading := loading st;
       saving := saving st; selected := selected st;
       notifications := notifications st;
       logged := logged st ++ [e] |}).

Section Actions.
Local Open Scope handler_scope.

(** [t] of vue-i18n with its named parameters, and [getFilepath] of
    '@/utils/backups'. *)
Variable t : string → list (string * string) → string.
Variable getFilepath : UserDbBackup.t → string → string.

(** The backend, as [useBackupApi] exposes it: the outcome of each call. *)
Variable infoApi : Outcome DatabaseInfo.
Variable deleteBackup : list string → Outcome unit.
Variable createBackup : Outcome string.

Definition loadInfo : Handler State unit :=
  tryFinally
    (tryCatch
       (update (setLoading true) >>
        let* result := await infoApi in
        update (setBackupInfo (Some result)))
       (λ e,
          loggerError e >>
          notify (Notification.mk true None
                    (t "database_backups.load_error.title" [])
                    (t "database_backups.load_error.message"
                       [("message", message e)]))))
    (update (setLoading false)).

(** The body of [get(selected).forEach] in [massRemove]. *)
Definition spliceAll (dbs : list UserDbBackup.t) (i : DatabaseInfo)
  : DatabaseInfo :=
  foldl (λ acc db,
           spliceBackup
             (findIndex (λ backup, isSameEntry backup db)
                        (backups (userdb acc)))
             acc)
        i dbs.

Definition massRemove : Handler State unit :=
  let* st := read in
  let filepaths := (λ db, getFilepath db (directory st)) <$> selected st in
  tryCatch
    (await (deleteBackup filepaths) >>
     let* st := read in
     match backupInfo st with
     | Some i => update (setBackupInfo (Some (spliceAll (selected st) i)))
     | None => ret tt
     end >>
     update (setSelected []))
    (λ e,
       loggerError e >>
       notify (Notification.mk true None
                 (t "database_backups.delete_error.title" [])
                 (t "database_backups.delete_error.mass_message"
                    [("message", message e)]))).

Definition remove (db : UserDbBackup.t) : Handler State unit :=
  let* st := read in
  let filepath := getFilepath db (directory st) in
  tryCatch
    (await (deleteBackup [filepath]) >>
     let* st := read in
     match backupInfo st with
     | Some i =>
         let index := findIndex (λ backup, isSameEntry backup db)
                                (backups (userdb i)) in
         update (setBackupInfo (Some (spliceBackup index i))) >>
         let* st := read in
         if 0 <? Z.of_nat (length (selected st)) then
           update (setSelected
                     (filter (λ item, negb (isSameEntry item db))
                             (selected st)))
         else ret tt
     | None => ret tt
     end)
    (λ e,
       loggerError e >>
       notify (Notification.mk true None
                 (t "database_backups.delete_error.title" [])
                 (t "database_backups.delete_error.message"
                    [("file", filepath); ("message", message e)]))).

Definition backup : Handler State unit :=
  tryFinally
    (tryCatch
       (update (setSaving true) >>
        let* filepath := await createBackup in
        notify (Notification.mk true (Some "info")
                  (t "database_backups.backup.title" [])
                  (t "database_backups.backup.message"
                     [("filepath", filepath)])) >>
        loadInfo)
       (λ e,
          loggerError e >>
          notify (Notification.mk true None
                    (t "database_backups.backup_error.title" [])
                    (t "database_backups.backup_error.message"
                       [("message", message e)]))))
    (update (setSaving false)).

(** *** Properties of the actions *)

Lemma findIndex_first {A : Type} (pred : A → bool) (l : list A) :
  (∃ x, x ∈ l ∧ pred x = true) →
  ∃ before x after,
    l = before ++ x :: after ∧ pred x = true ∧
    Forall (λ y, pred y = false) before ∧
    findIndex pred l = Z.of_nat (length before).
Proof.
  induction l as [| y l IH]; intros (x & Hin & Hx).
  { by apply elem_of_nil in Hin. }
  simpl. destruct (pred y) eqn:Hy.
  - by exists [], y, l.
  - apply elem_of_cons in Hin as [-> | Hin]; [congruence |].
    destruct IH as (before & z & after & -> & Hz & Hbefore & Hidx);
      [by exists x |].
    exists (y :: before), z, after. rewrite Hidx.
    split_and!; [done | done | by constructor |].
    replace (Z.of_nat (length before) <? 0) with false
      by (symmetry; apply Z.ltb_ge; lia).
    simpl length. lia.
Qed.

Lemma splice1_at {A : Type} (before after : list A) (x : A) :
  splice1 (Z.of_nat (length before)) (before ++ x :: after) =
    before ++ after.
Proof.
  unfold splice1.
  replace (Z.of_nat (length before) <? 0) with false
    by (symmetry; apply Z.ltb_ge; lia).
  rewrite length_app. simpl length.
  rewrite Z.min_l by lia. rewrite Nat2Z.id.
  rewrite take_app_length, drop_app, drop_ge by lia.
  by replace (S (length before) - length before)%nat with 1%nat by lia.
Qed.

(** [isSameEntry] compares the three fields. *)
Lemma isSameEntry_same (a b : UserDbBackup.t) :
  isSameEntry a b = true ↔ sameVersionTimeSize a b.
Proof.
  unfold isSameEntry, sameVersionTimeSize.
  rewrite !andb_true_iff, !Z.eqb_eq. tauto.
Qed.

Lemma isSameEntry_differ (a b : UserDbBackup.t) :
  isSameEntry a b = false ↔ ¬ sameVersionTimeSize a b.
Proof.
  rewrite <- isSameEntry_same. by destruct (isSameEntry a b).
Qed.

(** C7. Let an entry of the backups list have the version, the time and
    the size of [db]. If [deleteBackup] resolves, [remove] takes exactly
    the first such entry out of the list and every such entry out of the
    selection, and raises no notification. If it rejects, the backups list
    and the selection stay as they were and one notification carrying the
    file path and the error message is raised. *)
Theorem remove_backup (db : UserDbBackup.t) (st : State) :
  (∃ entry, entry ∈ backupsOf st ∧ sameVersionTimeSize entry db) →
  ∃ st', remove db st = (Resolved tt, st') ∧
    loading st' = loading st ∧ saving st' = saving st ∧
    match deleteBackup [getFilepath db (directory st)] with
    | Resolved _ =>
        (∃ before entry after,
           backupsOf st = before ++ entry :: after ∧
           sameVersionTimeSize entry db ∧
           Forall (λ b, ¬ sameVersionTimeSize b db) before ∧
           backupsOf st' = before ++ after) ∧
        selected st' =
          filter (λ item, ¬ sameVersionTimeSize item db) (selected st) ∧
        notifications st' = notifications st ∧
        logged st' = logged st
    | Rejected e =>
        backupInfo st' = backupInfo st ∧
        selected st' = selected st ∧
        notifications st' =
          notifications st ++
          [Notification.mk true None
             (t "database_backups.delete_error.title" [])
             (t "database_backups.delete_error.message"
                [("file", getFilepath db (directory st));
                 ("message", message e)])] ∧
        logged st' = logged st ++ [e]
    end.
Proof.
  intros (found & Hfound & Hsame).
  assert (Hin : ∃ entry, entry ∈ backupsOf st ∧ isSameEntry entry db = true).
  { exists found. split; [done | by apply isSameEntry_same]. }
  assert (Hfilter : ∀ l : list UserDbBackup.t,
    filter (λ item, negb (isSameEntry item db)) l =
    filter (λ item, ¬ sameVersionTimeSize item db) l).
  { intros l. apply list_filter_iff. intros item.
    rewrite <- isSameEntry_differ. by destruct (isSameEntry item db). }
  unfold remove, bind, tryCatch, read, await. simpl.
  destruct (deleteBackup [getFilepath db (directory st)]) as [[] | e].
  - unfold backupsOf in *.
    destruct (backupInfo st) as [i |] eqn:Hinfo.
    2: { destruct Hin as (x & Hx & _). by apply elem_of_nil in Hx. }
    destruct (findIndex_first (λ backup, isSameEntry backup db)
                (backups (userdb i)) Hin)
      as (before & x & after & Hsplit & Hx & Hbefore & Hidx).
    apply isSameEntry_same in Hx.
    assert (Hbefore' : Forall (λ b, ¬ sameVersionTimeSize b db) before).
    { eapply Forall_impl; [exact Hbefore |].
      intros b Hb. by apply isSameEntry_differ. }
    unfold update, ret. simpl.
    assert (Hspliced :
      splice1 (findIndex (λ backup, isSameEntry backup db)
                         (backups (userdb i)))
              (backups (userdb i)) = before ++ after).
    { rewrite Hidx, Hsplit. apply splice1_at. }
    destruct (selected st) as [| item rest] eqn:Hsel.
    + simpl. eexists. split; [reflexivity |]. simpl.
      split_and!; try done.
      exists before, x, after. by split_and!.
    + replace (0 <? Z.of_nat (length (item :: rest))) with true
        by (symmetry; apply Z.ltb_lt; simpl length; lia).
      eexists. split; [reflexivity |]. simpl.
      split_and!; try done.
      exists before, x, after. by split_and!.
  - unfold loggerError, notify, update. simpl.
    eexists. split; [done |]. by simpl.
Qed.

(** *** Entries that are, or are not, in the list *)

#[global] Instance UserDbBackup_eq_dec : EqDecision UserDbBackup.t.
Proof. solve_decision. Defined.

Lemma isSameEntry_eq (a b : UserDbBackup.t) :
  isSameEntry a b = true ↔ a = b.
Proof.
  unfold isSameEntry. destruct a, b. simpl.
  rewrite !andb_true_iff, !Z.eqb_eq. split; [intros [[-> ->] ->] | intros [=]];
    done.
Qed.

Lemma findIndex_absent {A : Type} (pred : A → bool) (l : list A) :
  Forall (λ x, pred x = false) l → findIndex pred l = -1.
Proof.
  induction 1 as [| x l Hx _ IH]; simpl; [done |].
  by rewrite Hx, IH.
Qed.

Lemma filter_all {A : Type} (P : A → Prop) `{!∀ x, Decision (P x)}
    (l : list A) :
  Forall P l → filter P l = l.
Proof.
  induction 1 as [| x l Hx _ IH]; [done |].
  by rewrite filter_cons_True, IH.
Qed.

(** [splice(-1, 1)] takes the last element out. *)
Lemma splice1_last {A : Type} (l : list A) :
  splice1 (-1) l = take (length l - 1) l.
Proof.
  unfold splice1. simpl.
  destruct l as [| x l]; [done |].
  replace (Z.to_nat (Z.max (Z.of_nat (length (x :: l)) + -1) 0))
    with (length (x :: l) - 1)%nat by (simpl length; lia).
  rewrite drop_ge by (simpl length; lia). by rewrite app_nil_r.
Qed.

(** X13. When no entry of the backups list is equal to [db]
    ([isSameEntry]) and [deleteBackup] resolves, [remove] takes the last
    entry out of the list: [findIndex] returns [-1] and [splice(-1, 1)]
    counts from the end. No notification is raised. *)
Theorem remove_absent_backup (db : UserDbBackup.t) (st : State) :
  Forall (λ entry, isSameEntry entry db = false) (backupsOf st) →
  deleteBackup [getFilepath db (directory st)] = Resolved tt →
  ∃ st', remove db st = (Resolved tt, st') ∧
    backupsOf st' = take (length (backupsOf st) - 1) (backupsOf st) ∧
    notifications st' = notifications st.
Proof.
  intros Habsent Hdelete.
  unfold remove, bind, tryCatch, read, await. simpl. rewrite Hdelete.
  unfold backupsOf in *.
  destruct (backupInfo st) as [i |] eqn:Hinfo.
  - assert (Hspliced :
      splice1 (findIndex (λ backup, isSameEntry backup db)
                         (backups (userdb i)))
              (backups (userdb i)) =
        take (length (backups (userdb i)) - 1) (backups (userdb i)))
      by (by rewrite (findIndex_absent _ _ Habsent), splice1_last).
    unfold update, ret. simpl.
    destruct (selected st) as [| item rest] eqn:Hsel.
    + simpl. eexists. split; [reflexivity |]. by simpl.
    + replace (0 <? Z.of_nat (length (item :: rest))) with true
        by (symmetry; apply Z.ltb_lt; simpl length; lia).
      eexists. split; [reflexivity |]. by simpl.
  - unfold ret. eexists. split; [reflexivity |]. by rewrite Hinfo.
Qed.

(** The list of [info.userdb.backups] after the loop of [massRemove]. *)
Lemma spliceAll_backups (dbs : list UserDbBackup.t) (i : DatabaseInfo) :
  backups (userdb (spliceAll dbs i)) =
    foldl (λ l db, splice1 (findIndex (λ backup, isSameEntry backup db) l) l)
          (backups (userdb i)) dbs.
Proof.
  unfold spliceAll. revert i.
  induction dbs as [| db dbs IH]; intros i; simpl; [done |].
  by rewrite IH.
Qed.

Lemma splice1_present (db : UserDbBackup.t) (l : list UserDbBackup.t) :
  NoDup l → db ∈ l →
  splice1 (findIndex (λ backup, isSameEntry backup db) l) l =
    filter (λ backup, backup ≠ db) l.
Proof.
  intros Hnodup Hin.
  destruct (findIndex_first (λ backup, isSameEntry backup db) l)
    as (before & x & after & -> & Hx & _ & Hidx).
  { exists db. split; [done |]. by apply isSameEntry_eq. }
  apply isSameEntry_eq in Hx as ->.
  rewrite Hidx, splice1_at.
  apply NoDup_app in Hnodup as (Hbefore & Hnotin & [Hafter _]%NoDup_cons).
  rewrite filter_app, filter_cons_False by (intros H; by apply H).
  f_equal; symmetry; apply filter_all, Forall_forall; intros y Hy ->.
  - apply (Hnotin db Hy). by left.
  - done.
Qed.

Lemma splice_all_present (dbs l : list UserDbBackup.t) :
  NoDup l → NoDup dbs → dbs ⊆ l →
  foldl (λ l db, splice1 (findIndex (λ backup, isSameEntry backup db) l) l)
        l dbs =
    filter (λ backup, backup ∉ dbs) l.
Proof.
  revert l. induction dbs as [| db dbs IH]; intros l Hl Hdbs Hsub; simpl.
  { symmetry. apply filter_all, Forall_forall. intros y _ Hy.
    by apply elem_of_nil in Hy. }
  apply NoDup_cons in Hdbs as [Hdb Hdbs].
  rewrite splice1_present by (done || apply Hsub; by left).
  rewrite IH.
  - rewrite list_filter_filter. apply list_filter_iff. intros y.
    rewrite elem_of_cons. split; [intros [? ?] [-> |]; done |].
    intros H. split; [intros ?; apply H; by right | intros ->; apply H; by left].
  - by apply NoDup_filter.
  - done.
  - intros y Hy. apply list_elem_of_filter. split.
    + intros ->. done.
    + apply Hsub. by right.
Qed.

(** X14. When the backups list and the selection hold no entry twice,
    every selected entry is in the list, and [deleteBackup] resolves,
    [massRemove] takes exactly the selected entries out of the list, keeps
    the others in their order, empties the selection and raises no
    notification. *)
Theorem massRemove_selected (st : State) :
  NoDup (backupsOf st) → NoDup (selected st) →
  selected st ⊆ backupsOf st →
  deleteBackup ((λ db, getFilepath db (directory st)) <$> selected st)
    = Resolved tt →
  ∃ st', massRemove st = (Resolved tt, st') ∧
    backupsOf st' = filter (λ backup, backup ∉ selected st) (backupsOf st) ∧
    selected st' = [] ∧
    notifications st' = notifications st.
Proof.
  intros Hbackups Hselected Hsub Hdelete.
  unfold massRemove, bind, tryCatch, read, await. simpl. rewrite Hdelete.
  unfold backupsOf in *.
  destruct (backupInfo st) as [i |] eqn:Hinfo.
  - unfold update. simpl. eexists. split; [reflexivity |]. simpl.
    split_and!; [| done..].
    rewrite spliceAll_backups. by apply splice_all_present.
  - unfold ret, update. simpl. eexists. split; [reflexivity |]. simpl.
    rewrite Hinfo. done.
Qed.



(** X15. [backup] always resolves and leaves [saving] unset. When
    [createBackup] rejects, one notification with the error message is
    raised and nothing is refreshed. When it resolves, a notification with
    the file path is raised and the info is loaded again: the loaded info
    replaces [backupInfo], or, when that call rejects, a second
    notification with its message follows and [backupInfo] stays as it
    was; [loading] is unset either way. The selection is never touched. *)
Theorem backup_outcomes (st : State) :
  ∃ st', backup st = (Resolved tt, st') ∧
    saving st' = false ∧ selected st' = selected st ∧
    match createBackup with
    | Rejected e =>
        backupInfo st' = backupInfo st ∧ loading st' = loading st ∧
        notifications st' =
          notifications st ++
          [Notification.mk true None
             (t "database_backups.backup_error.title" [])
             (t "database_backups.backup_error.message"
                [("message", message e)])]
    | Resolved filepath =>
        let created :=
          Notification.mk true (Some "info")
            (t "database_backups.backup.title" [])
            (t "database_backups.backup.message" [("filepath", filepath)]) in
        loading st' = false ∧
        match infoApi with
        | Resolved result =>
            backupInfo st' = Some result ∧
            notifications st' = notifications st ++ [created]
        | Rejected e =>
            backupInfo st' = backupInfo st ∧
            notifications st' =
              notifications st ++
              [created;
               Notification.mk true None
                 (t "database_backups.load_error.title" [])
                 (t "database_backups.load_error.message"
                    [("message", message e)])]
        end
    end.
Proof.
  unfold backup, loadInfo, notify, loggerError.
  run_handler.
  destruct createBackup as [filepath | e]; simpl.
  - destruct infoApi as [result | e]; simpl;
      (eexists; split; [reflexivity |]; simpl; split_and!; try done).
    by rewrite <- app_assoc.
  - eexists. split; [reflexivity |]. by simpl.
Qed.


End Actions.

Lemma remove_backup_witness :
  let t := λ (key : string) (params : list (string * string)), key in
  let getFilepath := λ (db : UserDbBackup.t) (directory : string),
                       directory +:+ pretty (UserDbBackup.time db) in
  let deleteBackup := λ _ : list string, Resolved tt in
  let db := UserDbBackup.mk 5 1700000000 4096 in
  let older := UserDbBackup.mk 4 1600000000 2048 in
  let resized := UserDbBackup.mk 5 1700000000 8192 in
  let st := {| backupInfo :=
                 Some {| globaldb := {| globaldbAssetsVersion := 20;
                                        globaldbSchemaVersion := 4 |};
                         userdb := {| info := UserDbInfo.mk
                                                "/data/user/rotkehlchen.db"
                                                8192 36;
                                      backups :=
                                        [older; resized; db; db] |} |};
               loading := false; saving := false;
               selected := [db; resized; older];
               notifications := []; logged := [] |} in
  ∃ st', remove t getFilepath deleteBackup db st = (Resolved tt, st') ∧
    loading st' = loading st ∧ saving st' = saving st ∧
    (∃ before entry after,
       backupsOf st = before ++ entry :: after ∧
       sameVersionTimeSize entry db ∧
       Forall (λ b, ¬ sameVersionTimeSize b db) before ∧
       backupsOf st' = before ++ after) ∧
    selected st' =
      filter (λ item, ¬ sameVersionTimeSize item db) (selected st) ∧
    notifications st' = notifications st ∧
    logged st' = logged st.
Proof.
  intros t getFilepath deleteBackup db older resized st.
  apply (remove_backup t getFilepath deleteBackup db st).
  exists db. split; [| done].
  simpl. do 2 (apply elem_of_cons; right). apply elem_of_cons. by left.
Defined.

(** The entries that differ from [db] in one field stay: only the first of
    the two equal entries goes, and the selection keeps the entry of
    another size. *)
Example remove_backup_first_of_equal_entries :
  let deleteBackup := λ _ : list string, Resolved tt in
  let db := UserDbBackup.mk 5 1700000000 4096 in
  let older := UserDbBackup.mk 4 1600000000 2048 in
  let st := {| backupInfo :=
                 Some {| globaldb := {| globaldbAssetsVersion := 20;
                                        globaldbSchemaVersion := 4 |};
                         userdb := {| info := UserDbInfo.mk
                                                "/data/user/rotkehlchen.db"
                                                8192 36;
                                      backups := [older; db; db] |} |};
               loading := false; saving := false;
               selected := [db; older; db];
               notifications := []; logged := [] |} in
  let st' := (remove (λ key _, key) (λ _ directory, directory)
                     deleteBackup db st).2 in
  backupsOf st' = [older; db] ∧ selected st' = [older].
Proof. split; reflexivity. Qed.

Lemma remove_absent_backup_witness :
  let t := λ (key : string) (params : list (string * string)), key in
  let getFilepath := λ (db : UserDbBackup.t) (directory : string),
                       directory +:+ pretty (UserDbBackup.time db) in
  let deleteBackup := λ _ : list string, Resolved tt in
  let db := UserDbBackup.mk 5 1700000000 4096 in
  let older := UserDbBackup.mk 4 1600000000 2048 in
  let newer := UserDbBackup.mk 6 1800000000 8192 in
  let st := {| backupInfo :=
                 Some {| globaldb := {| globaldbAssetsVersion := 20;
                                        globaldbSchemaVersion := 4 |};
                         userdb := {| info := UserDbInfo.mk
                                                "/data/user/rotkehlchen.db"
                                                8192 36;
                                      backups := [older; newer] |} |};
               loading := false; saving := false;
               selected := [];
               notifications := []; logged := [] |} in
  ∃ st', remove t getFilepath deleteBackup db st = (Resolved tt, st') ∧
    backupsOf st' = take (length (backupsOf st) - 1) (backupsOf st) ∧
    notifications st' = notifications st.
Proof.
  intros t getFilepath deleteBackup db older newer st.
  apply (remove_absent_backup t getFilepath deleteBackup db st).
  - repeat constructor.
  - reflexivity.
Defined.

Lemma massRemove_selected_witness :
  let t := λ (key : string) (params : list (string * string)), key in
  let getFilepath := λ (db : UserDbBackup.t) (directory : string),
                       directory +:+ pretty (UserDbBackup.time db) in
  let deleteBackup := λ _ : list string, Resolved tt in
  let first := UserDbBackup.mk 4 1600000000 2048 in
  let second := UserDbBackup.mk 5 1700000000 4096 in
  let third := UserDbBackup.mk 6 1800000000 8192 in
  let st := {| backupInfo :=
                 Some {| globaldb := {| globaldbAssetsVersion := 20;
                                        globaldbSchemaVersion := 4 |};
                         userdb := {| info := UserDbInfo.mk
                                                "/data/user/rotkehlchen.db"
                                                8192 36;
                                      backups := [first; second; third] |} |};
               loading := false; saving := false;
               selected := [third; first];
               notifications := []; logged := [] |} in
  ∃ st', massRemove t getFilepath deleteBackup st = (Resolved tt, st') ∧
    backupsOf st' = filter (λ backup, backup ∉ selected st) (backupsOf st) ∧
    selected st' = [] ∧
    notifications st' = notifications st.
Proof.
  intros t getFilepath deleteBackup first second third st.
  apply (massRemove_selected t getFilepath deleteBackup st).
  - apply (bool_decide_unpack _). vm_compute. exact I.
  - apply (bool_decide_unpack _). vm_compute. exact I.
  - intros db Hdb. simpl in Hdb.
    apply elem_of_cons in Hdb as [-> | Hdb];
      [| apply list_elem_of_singleton in Hdb as ->];
      unfold backupsOf; simpl; repeat constructor.
  - reflexivity.
Defined.


(** *** The directory of the database *)

Lemma substring_0_0 (s : string) : String.substring 0 0 s = "".
Proof. by destruct s. Qed.

Lemma append_cons (c : ascii) (s1 s2 : string) :
  String c s1 +:+ s2 = String c (s1 +:+ s2).
Proof. reflexivity. Qed.

Lemma list_ascii_of_string_append (s1 s2 : string) :
  String.list_ascii_of_string (s1 +:+ s2) =
    String.list_ascii_of_string s1 ++ String.list_ascii_of_string s2.
Proof.
  induction s1 as [| c s1 IH]; [done |].
  rewrite append_cons. simpl. by rewrite IH.
Qed.

(** [s.slice(0, s.lastIndexOf(c) + 1)] and the rest of [s]. *)
Lemma lastIndexOf_split (c : ascii) (s : string) :
  -1 ≤ lastIndexOf c s ∧
  ∃ file,
    s = String.substring 0 (Z.to_nat (lastIndexOf c s + 1)) s +:+ file ∧
    (c ∉ String.list_ascii_of_string file) ∧
    (lastIndexOf c s = -1 → file = s) ∧
    (0 ≤ lastIndexOf c s →
     ∃ d, String.substring 0 (Z.to_nat (lastIndexOf c s + 1)) s =
          d +:+ String c "").
Proof.
  induction s as [| c' rest (Hge & file & Hrest & Hfile & Hnone & Hsome)];
    simpl.
  { split; [lia |]. exists "". split_and!; [done | | done | lia].
    simpl. apply not_elem_of_nil. }
  destruct (Z.leb_spec 0 (lastIndexOf c rest)) as [Hfound | Habsent].
  - split; [lia |]. exists file.
    replace (Z.to_nat (lastIndexOf c rest + 1 + 1))
      with (S (Z.to_nat (lastIndexOf c rest + 1))) by lia.
    simpl. split_and!; [by rewrite append_cons, <- Hrest | done | lia |].
    intros _. destruct (Hsome Hfound) as [d Hd].
    exists (String c' d). by rewrite append_cons, Hd.
  - assert (lastIndexOf c rest = -1) as Hminus by lia.
    specialize (Hnone Hminus). subst file.
    case_bool_decide as Hc; simpl.
    + split; [lia |]. exists rest. rewrite substring_0_0.
      split_and!; [done | done | lia |].
      intros _. exists "". by rewrite Hc.
    + split; [lia |]. exists (String c' rest).
      split_and!; [done | | done | lia].
      simpl. rewrite not_elem_of_cons. split; [congruence | done].
Qed.

(** X16. With the database info loaded, the file path is the computed
    [directory] followed by a rest that holds no slash, and no backslash
    either when the whole path holds no slash. The directory is empty, the
    rest then being the whole path, or it ends in a slash or in a
    backslash: it is the path up to and including its last separator. *)
Theorem directory_splits (st : State) (i : DatabaseInfo) :
  backupInfo st = Some i →
  let filepath := UserDbInfo.filepath (info (userdb i)) in
  ∃ file,
    filepath = directory st +:+ file ∧
    ("/"%char ∉ String.list_ascii_of_string file) ∧
    ("/"%char ∉ String.list_ascii_of_string filepath →
     "\"%char ∉ String.list_ascii_of_string file) ∧
    (directory st = "" ∧ file = filepath ∨
     ∃ d, directory st = d +:+ "/" ∨ directory st = d +:+ "\").
Proof.
  intros Hinfo filepath. unfold directory. rewrite Hinfo. fold filepath.
  destruct (lastIndexOf_split "/" filepath)
    as (Hge & file & Hsplit & Hfile & Hnone & Hsome).
  destruct (lastIndexOf "/" filepath =? -1) eqn:Hslash.
  - apply Z.eqb_eq in Hslash. specialize (Hnone Hslash). subst file.
    destruct (lastIndexOf_split "\" filepath)
      as (Hge' & file' & Hsplit' & Hfile' & Hnone' & Hsome').
    exists file'. split_and!; [done | | done |].
    + intros Hin. apply Hfile. rewrite Hsplit'.
      rewrite list_ascii_of_string_append, elem_of_app. by right.
    + destruct (Z.leb_spec 0 (lastIndexOf "\" filepath)) as [Hfound | Habsent].
      * right. destruct (Hsome' Hfound) as [d Hd]. exists d. by right.
      * left. assert (lastIndexOf "\" filepath = -1) as Hminus by lia.
        rewrite Hminus. simpl. rewrite substring_0_0. split; [done |].
        by apply Hnone'.
  - apply Z.eqb_neq in Hslash. exists file. split_and!; [done | done | |].
    + intros Hin. exfalso. apply Hin. rewrite Hsplit.
      destruct (Hsome ltac:(lia)) as [d ->].
      rewrite !list_ascii_of_string_append, !elem_of_app. left. right.
      simpl. by left.
    + right. destruct (Hsome ltac:(lia)) as [d Hd]. exists d. by left.
Qed.

Lemma directory_splits_witness :
  let i := {| globaldb := {| globaldbAssetsVersion := 20;
                             globaldbSchemaVersion := 4 |};
              userdb := {| info := UserDbInfo.mk "/data/user/rotkehlchen.db"
                                                 8192 36;
                           backups := [] |} |} in
  let st := {| backupInfo := Some i; loading := false; saving := false;
               selected := []; notifications := []; logged := [] |} in
  ∃ file,
    "/data/user/rotkehlchen.db" = directory st +:+ file ∧
    ("/"%char ∉ String.list_ascii_of_string file) ∧
    ("/"%char ∉ String.list_ascii_of_string "/data/user/rotkehlchen.db" →
     "\"%char ∉ String.list_ascii_of_string file) ∧
    (directory st = "" ∧ file = "/data/user/rotkehlchen.db" ∨
     ∃ d, directory st = d +:+ "/" ∨ directory st = d +:+ "\").
Proof.
  intros i st. apply (directory_splits st i). reflexivity.
Defined.

Example directory_of_paths :
  let stateOf := λ filepath,
    {| backupInfo :=
         Some {| globaldb := {| globaldbAssetsVersion := 20;
                                globaldbSchemaVersion := 4 |};
                 userdb := {| info := UserDbInfo.mk filepath 8192 36;
                              backups := [] |} |};
       loading := false; saving := false; selected := [];
       notifications := []; logged := [] |} in
  directory (stateOf "/data/user/rotkehlchen.db") = "/data/user/" ∧
  directory (stateOf "C:\Users\me\rotkehlchen.db") = "C:\Users\me\" ∧
  directory (stateOf "rotkehlchen.db") = "".
Proof. by split_and!. Qed.


End BackupManager.

(** ** The message dialog ([useMessageStore().setMessage]) *)

Module Message.
Record t := mk {
  title : option string;
  description : option string;
  success : option bool
}.
End Message.

(** ** External service keys (the settings page that saves API keys) *)

Module ExternalServices.

(** [ExternalServiceKeys] of '@/types/user': the [apiKey] of each service that
    has one. *)
Record ExternalServiceKeys := {
  cryptocompare : option string;
  covalent : option string;
  etherscan : option string;
  beaconchain : option string;
  loopring : option string;
  opensea : option string;
  optimismEtherscan : option string;
  polygonPosEtherscan : option string
}.

(** [ExternalServiceKey]: what is sent to save one key. *)
Record ExternalServiceKey := { name : string; apiKey : string }.

(** [EvmEtherscanTab]. *)
Record EvmEtherscanTab := { key : string; value : string }.

(** A notification of the store, with its [i18nParam?.props?.key]. *)
Record StoredNotification := { id : Z; propsKey : option string }.

(** The refs of the page; [evmEtherscanTabs] keeps the insertion order of its
    three keys. [messages] are the [setMessage] calls, [removed] the ids
    passed to the notification store's [remove]. *)
Record State := {
  evmEtherscanTabIndex : Z;
  evmEtherscanTabs : list (string * EvmEtherscanTab);
  cryptocompareKey : string;
  covalentKey : string;
  beaconchainKey : string;
  loopringKey : string;
  openseaKey : string;
  loading : bool;
  messages : list Message.t;
  removed : list Z
}.

(** [key?.apiKey || '']. *)
Definition apiKeyOrEmpty (k : option string) : string :=
  match k with
  | Some apiKey => apiKey
  | None => ""
  end.

(** [evmEtherscanTabs[location].value = v]. *)
Definition setTabValue (location v : string)
    (tabs : list (string * EvmEtherscanTab)) : list (string * EvmEtherscanTab) :=
  (λ entry : string * EvmEtherscanTab,
     if bool_decide (entry.1 = location)
     then (entry.1, {| key := key entry.2; value := v |})
     else entry) <$> tabs.

Definition setLoading (v : bool) (st : State) : State :=
  {| evmEtherscanTabIndex := evmEtherscanTabIndex st;
     evmEtherscanTabs := evmEtherscanTabs st;
     cryptocompareKey := cryptocompareKey st; covalentKey := covalentKey st;
     beaconchainKey := beaconchainKey st; loopringKey := loopringKey st;
     openseaKey := openseaKey st; loading := v;
     messages := messages st; removed := removed st |}.

Definition setMessage (m : Message.t) (st : State) : State :=
  {| evmEtherscanTabIndex := evmEtherscanTabIndex st;
     evmEtherscanTabs := evmEtherscanTabs st;
     cryptocompareKey := cryptocompareKey st; covalentKey := covalentKey st;
     beaconchainKey := beaconchainKey st; loopringKey := loopringKey st;
     openseaKey := openseaKey st; loading := loading st;
     messages := messages st ++ [m]; removed := removed st |}.

Definition removeNotification (i : Z) (st : State) : State :=
  {| evmEtherscanTabIndex := evmEtherscanTabIndex st;
     evmEtherscanTabs := evmEtherscanTabs st;
     cryptocompareKey := cryptocompareKey st; covalentKey := covalentKey st;
     beaconchainKey := beaconchainKey st; loopringKey := loopringKey st;
     openseaKey := openseaKey st; loading := loading st;
     messages := messages st; removed := removed st ++ [i] |}.

Definition setTabIndex (i : Z) (st : State) : State :=
  {| evmEtherscanTabIndex := i;
     evmEtherscanTabs := evmEtherscanTabs st;
     cryptocompareKey := cryptocompareKey st; covalentKey := covalentKey st;
     beaconchainKey := beaconchainKey st; loopringKey := loopringKey st;
     openseaKey := openseaKey st; loading := loading st;
     messages := messages st; removed := removed st |}.

(** [serviceName.split('_').join(' ')]. *)
Fixpoint underscoresToSpaces (s : string) : string :=
  match s with
  | EmptyString => EmptyString
  | String c rest =>
      String (if bool_decide (c = "_"%char) then " "%char else c)
             (underscoresToSpaces rest)
  end.

Section Page.
Local Open Scope handler_scope.

(** [t] of vue-i18n, [toCapitalCase] of '@/utils/text', [String.trim], and
    the locations of '@/data/defaults'. *)
Variable t : string → list (string * string) → string.
Variable toCapitalCase : string → string.
Variable trim : string → string.
Variables TRADE_LOCATION_ETHEREUM TRADE_LOCATION_OPTIMISM
          TRADE_LOCATION_POLYGON_POS : string.

(** The notification store's [prioritized] list. *)
Variable prioritized : list StoredNotification.

Definition updateKeys (keys : ExternalServiceKeys) (st : State) : State :=
  {| evmEtherscanTabIndex := evmEtherscanTabIndex st;
     evmEtherscanTabs :=
       setTabValue TRADE_LOCATION_POLYGON_POS
         (apiKeyOrEmpty (polygonPosEtherscan keys))
         (setTabValue TRADE_LOCATION_OPTIMISM
            (apiKeyOrEmpty (optimismEtherscan keys))
            (setTabValue TRADE_LOCATION_ETHEREUM
               (apiKeyOrEmpty (etherscan keys))
               (evmEtherscanTabs st)));
     cryptocompareKey := apiKeyOrEmpty (cryptocompare keys);
     covalentKey := apiKeyOrEmpty (covalent keys);
     beaconchainKey := apiKeyOrEmpty (beaconchain keys);
     loopringKey := apiKeyOrEmpty (loopring keys);
     openseaKey := apiKeyOrEmpty (opensea keys);
     loading := loading st;
     messages := messages st; removed := removed st |}.

Definition removeEtherscanNotification (location : string)
  : Handler State unit :=
  match find (λ data, bool_decide (propsKey data = Some location))
             prioritized with
  | None => ret tt
  | Some notification => update (removeNotification (id notification))
  end.

(** [save(serviceName, key)], given [api.setExternalServices] as the outcome
    of each call and the outcome of [fetchLoopringBalances]. *)
Definition save
    (setExternalServices : list ExternalServiceKey → Outcome ExternalServiceKeys)
    (fetchLoopringBalances : Outcome unit)
    (serviceName key : string) : Handler State unit :=
  let keys := [ {| name := serviceName; apiKey := trim key |} ] in
  tryCatch
    (update (setLoading true) >>
     let* keys := await (setExternalServices keys) in
     update (updateKeys keys) >>
     update (setMessage
               (Message.mk
                  (Some (t "external_services.set.success.title" []))
                  (Some (t "external_services.set.success.message"
                           [("serviceName",
                             toCapitalCase (underscoresToSpaces serviceName))]))
                  (Some true))) >>
     if bool_decide (serviceName = "loopring") then
       await fetchLoopringBalances
     else if bool_decide (serviceName = "etherscan") then
       removeEtherscanNotification TRADE_LOCATION_ETHEREUM
     else if bool_decide (serviceName = "optimism_etherscan") then
       removeEtherscanNotification TRADE_LOCATION_OPTIMISM
     else if bool_decide (serviceName = "polygon_pos_etherscan") then
       removeEtherscanNotification TRADE_LOCATION_POLYGON_POS
     else ret tt)
    (λ e,
       update (setMessage
                 (Message.mk
                    (Some (t "external_services.set.error.title" []))
                    (Some (t "external_services.set.error.message"
                             [("error", message e)]))
                    (Some false)))) >>
  update (setLoading false).

(** [confirm(service)], given [api.deleteExternalServices]. *)
Definition confirm
    (deleteExternalServices : string → Outcome ExternalServiceKeys)
    (service : string) : Handler State unit :=
  update (setLoading true) >>
  tryCatch
    (let* keys := await (deleteExternalServices service) in
     update (updateKeys keys))
    (λ e,
       update (setMessage
                 (Message.mk
                    (Some (t "external_services.delete_error.title" []))
                    (Some (t "external_services.delete_error.description"
                             [("message", message e)]))
                    (Some false)))) >>
  update (setLoading false).

(** The names that [in] finds on [evmEtherscanTabs] beside its own keys:
    those the object inherits from its prototype. *)
Variable inherited : string → bool.

(** [setActiveTab(hash)]. For a name that [in] finds and [Object.keys] does
    not list, [indexOf] is [-1]. *)
Definition setActiveTab (hash : string) : Handler State unit :=
  let id := substring1 hash in
  let* st := read in
  if truthy id &&
     (bool_decide (id ∈ (evmEtherscanTabs st).*1) || inherited id) then
    update (setTabIndex
              (findIndex (λ k, bool_decide (k = id)) (evmEtherscanTabs st).*1))
  else ret tt.

(** The [onMounted] hook, given the route hash and the outcome of
    [api.queryExternalServices]: the call is awaited outside any [try]. *)
Definition mounted (hash : string)
    (queryExternalServices : Outcome ExternalServiceKeys)
  : Handler State unit :=
  setActiveTab hash >>
  update (setLoading true) >>
  let* keys := await queryExternalServices in
  update (updateKeys keys) >>
  update (setLoading false).

(** *** Properties of the page *)


(** X18. [save] and [confirm] never reject and never leave [loading] set,
    whatever the backend, the refresh of the loopring balances and the
    notification store do; neither moves the selected etherscan tab. *)
Theorem save_confirm_reset_loading
    (setExternalServices : list ExternalServiceKey → Outcome ExternalServiceKeys)
    (deleteExternalServices : string → Outcome ExternalServiceKeys)
    (fetchLoopringBalances : Outcome unit)
    (serviceName key : string) (st : State) :
  (∃ st',
     save setExternalServices fetchLoopringBalances serviceName key st
       = (Resolved tt, st') ∧
     loading st' = false ∧
     evmEtherscanTabIndex st' = evmEtherscanTabIndex st) ∧
  (∃ st',
     confirm deleteExternalServices serviceName st = (Resolved tt, st') ∧
     loading st' = false ∧
     evmEtherscanTabIndex st' = evmEtherscanTabIndex st).
Proof.
  split.
  - unfold save, removeEtherscanNotification. run_handler.
    destruct (setExternalServices _) as [keys | e]; simpl;
      [| by eexists].
    repeat case_bool_decide; simpl;
      try destruct fetchLoopringBalances as [[] | e];
      repeat match goal with
             | |- context [find ?f ?l] => destruct (find f l)
             end;
      simpl; by eexists.
  - unfold confirm. run_handler.
    destruct (deleteExternalServices _) as [keys | e]; simpl; by eexists.
Qed.

(** What a tab shows after [updateKeys]: the key of the response for its
    location, the last of the three assignments that names it. *)
Definition tabValue (keys : ExternalServiceKeys)
    (entry : string * EvmEtherscanTab) : string * EvmEtherscanTab :=
  if bool_decide (entry.1 = TRADE_LOCATION_POLYGON_POS) then
    (entry.1, {| key := key entry.2;
                 value := apiKeyOrEmpty (polygonPosEtherscan keys) |})
  else if bool_decide (entry.1 = TRADE_LOCATION_OPTIMISM) then
    (entry.1, {| key := key entry.2;
                 value := apiKeyOrEmpty (optimismEtherscan keys) |})
  else if bool_decide (entry.1 = TRADE_LOCATION_ETHEREUM) then
    (entry.1, {| key := key entry.2;
                 value := apiKeyOrEmpty (etherscan keys) |})
  else entry.

Lemma updateKeys_tabs (keys : ExternalServiceKeys) (st : State) :
  evmEtherscanTabs (updateKeys keys st) =
    tabValue keys <$> evmEtherscanTabs st.
Proof.
  unfold updateKeys, setTabValue. simpl.
  rewrite <- !list_fmap_compose. apply list_fmap_ext.
  intros _ [location [k v]] _. unfold tabValue. simpl.
  repeat (case_bool_decide; simpl); try done; congruence.
Qed.

(** X19. What the page shows after [updateKeys] depends on the last
    response alone: a second response overrides the first in every field.
    The tabs keep their locations, their service names and their order. *)
Theorem updateKeys_overrides (first second : ExternalServiceKeys)
    (st : State) :
  updateKeys second (updateKeys first st) = updateKeys second st ∧
  (evmEtherscanTabs (updateKeys second st)).*1 = (evmEtherscanTabs st).*1 ∧
  key <$> (evmEtherscanTabs (updateKeys second st)).*2 =
    key <$> (evmEtherscanTabs st).*2.
Proof.
  split_and!.
  - assert (Htabs :
      evmEtherscanTabs (updateKeys second (updateKeys first st)) =
        evmEtherscanTabs (updateKeys second st)).
    { rewrite !updateKeys_tabs, <- list_fmap_compose.
      apply list_fmap_ext. intros _ [location [k v]] _.
      unfold tabValue. simpl.
      repeat (case_bool_decide; simpl); try done; congruence. }
    unfold updateKeys in *. simpl in *. by rewrite Htabs.
  - rewrite updateKeys_tabs, <- list_fmap_compose.
    apply list_fmap_ext. intros _ [location [k v]] _.
    unfold tabValue. simpl. by repeat (case_bool_decide; simpl).
  - rewrite updateKeys_tabs, <- !list_fmap_compose.
    apply list_fmap_ext. intros _ [location [k v]] _.
    unfold tabValue. simpl. by repeat (case_bool_decide; simpl).
Qed.

(** X20. [setActiveTab] selects the tab named by the hash: when the hash
    without its first character is the location of a tab, the selected
    index becomes the position of that tab. For an empty hash, a hash of
    one character, or one that names nothing on the object, the index
    stays as it was. For a name that the object only inherits, the index
    becomes [-1], which is no tab. Nothing else changes. *)
Theorem setActiveTab_index (hash : string) (st : State) :
  let id := substring1 hash in
  let locations := (evmEtherscanTabs st).*1 in
  ∃ st',
    setActiveTab hash st = (Resolved tt, st') ∧
    evmEtherscanTabs st' = evmEtherscanTabs st ∧
    loading st' = loading st ∧ messages st' = messages st ∧
    (id ≠ "" ∧ id ∈ locations →
       0 ≤ evmEtherscanTabIndex st' ∧
       locations !! Z.to_nat (evmEtherscanTabIndex st') = Some id) ∧
    (id = "" ∨ ((id ∉ locations) ∧ inherited id = false) →
       evmEtherscanTabIndex st' = evmEtherscanTabIndex st) ∧
    (id ≠ "" ∧ (id ∉ locations) ∧ inherited id = true →
       evmEtherscanTabIndex st' = -1).
Proof.
  intros id locations. unfold setActiveTab. run_handler.
  fold id. fold locations.
  destruct (truthy id) eqn:Hid; simpl.
  - apply TableFilter.truthy_true in Hid.
    case_bool_decide as Hin; simpl.
    + eexists. split; [reflexivity |]. simpl.
      split_and!; [done.. | | |].
      * intros _.
        destruct (BackupManager.findIndex_first
                    (λ k, bool_decide (k = id)) locations)
          as (before & x & after & Hsplit & Hx & _ & Hidx).
        { exists id. split; [done | by apply bool_decide_eq_true_2]. }
        apply bool_decide_eq_true in Hx as ->.
        rewrite Hidx, Nat2Z.id, Hsplit. split; [lia |].
        by rewrite lookup_app_r, Nat.sub_diag.
      * intros [? | [? _]]; done.
      * by intros (_ & ? & _).
    + destruct (inherited id) eqn:Hinherited.
      * eexists. split; [reflexivity |]. simpl.
        split_and!; [done.. | | |].
        -- by intros [_ ?].
        -- intros [? | [_ ?]]; done.
        -- intros _. apply BackupManager.findIndex_absent.
           apply Forall_forall. intros k Hk.
           apply bool_decide_eq_false_2. by intros ->.
      * eexists. split; [reflexivity |]. simpl.
        split_and!; [done.. | | done |].
        -- by intros [_ ?].
        -- by intros (_ & _ & ?).
  - apply TableFilter.truthy_false in Hid.
    eexists. split; [reflexivity |]. simpl.
    split_and!; [done.. | | done |].
    + by intros [? _].
    + by intros (? & _).
Qed.


End Page.



End ExternalServices.

(** ** Managed asset form (the form that adds or edits an asset) *)

Module ManagedAssetForm.

(** The refs that [save] and the [onBeforeMount] hook write, the [setMessage]
    calls and the number of [v$.$validate()] runs. The refs of the input
    fields only feed the payload of the backend call, whose outcome is given. *)
Record State := {
  identifier : string;
  types : list string;
  errors : gmap string (list string);
  messages : list Message.t;
  validations : nat
}.

Definition setIdentifier (v : string) (st : State) : State :=
  {| identifier := v; types := types st; errors := errors st;
     messages := messages st; validations := validations st |}.

Definition setTypes (v : list string) (st : State) : State :=
  {| identifier := identifier st; types := v; errors := errors st;
     messages := messages st; validations := validations st |}.

Definition setErrors (v : gmap string (list string)) (st : State) : State :=
  {| identifier := identifier st; types := types st; errors := v;
     messages := messages st; validations := validations st |}.

Definition setMessage (m : Message.t) (st : State) : State :=
  {| identifier := identifier st; types := types st; errors := errors st;
     messages := messages st ++ [m]; validations := validations st |}.

Definition validate (st : State) : State :=
  {| identifier := identifier st; types := types st; errors := errors st;
     messages := messages st; validations := S (validations st) |}.

(** [getUnderlyingTokenErrors]. The guard of the second [push] reads
    [underlyingTokens.weight], the entry named "weight" of the record, and
    spreading an absent [ut.weight] raises a [TypeError]. *)
Definition getUnderlyingTokenErrors (underlyingTokens : UnderlyingTokenErrors)
  : Outcome (list string) :=
  match underlyingTokens with
  | TokensMessage text => Resolved [text]
  | TokensRecord entries =>
      let guard := bool_decide ("weight" ∈ entries.*1) in
      foldl (λ (acc : Outcome (list string))
               (entry : string * UnderlyingTokenError),
               match acc with
               | Rejected e => Rejected e
               | Resolved messages =>
                   let messages :=
                     match address entry.2 with
                     | Some a => messages ++ a
                     | None => messages
                     end in
                   if guard then
                     match weight entry.2 with
                     | Some w => Resolved (messages ++ w)
                     | None => Rejected (TypeError "ut.weight is not iterable")
                     end
                   else Resolved messages
               end)
            (Resolved []) entries
  end.

(** The operands [errorsMessage.underlyingTokens] and
    [errorsMessage._schema] of [||]: an array is truthy, an absent key is
    not. *)
Definition schemaTruthy (schema : option (list string)) : bool :=
  match schema with
  | Some _ => true
  | None => false
  end.

Definition tokensTruthy (u : option UnderlyingTokenErrors) : bool :=
  match u with
  | Some (TokensMessage text) => truthy text
  | Some (TokensRecord _) => true
  | None => false
  end.

Section Form.
Local Open Scope handler_scope.

(** [t] of vue-i18n and [CUSTOM_ASSET] of '@/types/asset'. *)
Variable t : string → list (string * string) → string.
Variable CUSTOM_ASSET : string.

(** The prop [editableItem] is set. *)
Variable editableItem : bool.

(** The [onBeforeMount] hook, given the outcome of [getAssetTypes]. *)
Definition beforeMount (getAssetTypes : Outcome (list string))
  : Handler State unit :=
  tryCatch
    (let* queriedTypes := await getAssetTypes in
     update (setTypes (filter (λ item, item ≠ CUSTOM_ASSET) queriedTypes)))
    (λ e,
       update (setMessage
                 (Message.mk None
                    (Some (t "asset_form.types.error" [("message", message e)]))
                    None))).

(** [saveAsset], given the outcomes of [editAsset] and [addAsset]. *)
Definition saveAsset (editAsset : Outcome unit) (addAsset : Outcome string)
  : Handler State string :=
  if editableItem then
    let* st := read in
    await editAsset >>
    ret (identifier st)
  else await addAsset.

Definition handleError (errs : ValidationErrors) : Handler State unit :=
  match underlyingTokens errs with
  | Some tokens =>
      let* messages := await (getUnderlyingTokenErrors tokens) in
      update (setMessage
                (Message.mk (Some (t "asset_form.underlying_tokens" []))
                            (Some (String.concat "," messages)) None))
  | None =>
      update (setMessage
                (Message.mk (Some (t "asset_form.underlying_tokens" []))
                            (_schema errs ≫= head) None))
  end.

(** [save], given also the outcome of [assetIconFormRef?.saveIcon], absent
    when the ref is [null]. *)
Definition save (editAsset : Outcome unit) (addAsset : Outcome string)
    (saveIcon : option (Outcome unit)) : Handler State bool :=
  tryCatch
    (let* newIdentifier := saveAsset editAsset addAsset in
     update (setIdentifier newIdentifier) >>
     match saveIcon with
     | Some call => await call
     | None => ret tt
     end >>
     ret true)
    (λ e,
       let errorsMessage :=
         match e with
         | ApiValidationError _ validationErrors => validationErrors
         | _ => ValidationMessage (message e)
         end in
       match errorsMessage with
       | ValidationMessage text =>
           update (setMessage
                     (Message.mk
                        (Some (if editableItem
                               then t "asset_form.edit_error" []
                               else t "asset_form.add_error" []))
                        (Some text) None))
       | ValidationFields errs =>
           (if tokensTruthy (underlyingTokens errs) ||
               schemaTruthy (_schema errs)
            then handleError errs
            else ret tt) >>
           update (setErrors (fields errs)) >>
           update validate
       end >>
       ret false).

(** *** Properties of the form *)

(** The loop of [getUnderlyingTokenErrors] from the messages so far. *)
Definition tokenErrorsFrom (guard : bool) (messages : Outcome (list string))
    (entries : list (string * UnderlyingTokenError))
  : Outcome (list string) :=
  foldl (λ (acc : Outcome (list string))
           (entry : string * UnderlyingTokenError),
           match acc with
           | Rejected e => Rejected e
           | Resolved messages =>
               let messages :=
                 match address entry.2 with
                 | Some a => messages ++ a
                 | None => messages
                 end in
               if guard then
                 match weight entry.2 with
                 | Some w => Resolved (messages ++ w)
                 | None => Rejected (TypeError "ut.weight is not iterable")
                 end
               else Resolved messages
           end)
        messages entries.

Lemma tokenErrorsFrom_rejected (guard : bool) (e : Exception)
    (entries : list (string * UnderlyingTokenError)) :
  tokenErrorsFrom guard (Rejected e) entries = Rejected e.
Proof. induction entries as [| entry entries IH]; [done | exact IH]. Qed.

Lemma tokenErrorsFrom_unguarded (messages : list string)
    (entries : list (string * UnderlyingTokenError)) :
  tokenErrorsFrom false (Resolved messages) entries =
    Resolved (messages ++
              entries ≫= (λ entry, default [] (address entry.2))).
Proof.
  revert messages.
  induction entries as [| entry entries IH]; intros messages; simpl.
  { by rewrite app_nil_r. }
  unfold tokenErrorsFrom in *. simpl.
  destruct (address entry.2) as [a |]; simpl; rewrite IH.
  - by rewrite <- app_assoc.
  - done.
Qed.

Lemma tokenErrorsFrom_guarded (messages : list string)
    (entries : list (string * UnderlyingTokenError)) :
  (∃ e, tokenErrorsFrom true (Resolved messages) entries = Rejected e) ↔
  Exists (λ entry, weight entry.2 = None) entries.
Proof.
  revert messages.
  induction entries as [| entry entries IH]; intros messages.
  { split; [by intros [? ?] | by intros ?%Exists_nil]. }
  rewrite Exists_cons. unfold tokenErrorsFrom in *. simpl.
  destruct (weight entry.2) as [w |].
  - rewrite IH. split; [by right | by intros [? | ?]].
  - fold (tokenErrorsFrom true
            (Rejected (TypeError "ut.weight is not iterable")) entries).
    rewrite tokenErrorsFrom_rejected. split; [by left | by eexists].
Qed.

Lemma getUnderlyingTokenErrors_record
    (entries : list (string * UnderlyingTokenError)) :
  getUnderlyingTokenErrors (TokensRecord entries) =
    tokenErrorsFrom (bool_decide ("weight" ∈ entries.*1)) (Resolved [])
                    entries.
Proof. reflexivity. Qed.

(** X22. For a record of token errors with no token under the key
    ["weight"], [getUnderlyingTokenErrors] returns the [address] messages
    of the tokens, in order, and nothing else: the guard of the second
    [push] reads the record, not the token, so the [weight] messages of
    the tokens are left out. *)
Theorem getUnderlyingTokenErrors_drops_weights
    (entries : list (string * UnderlyingTokenError)) :
  "weight" ∉ entries.*1 →
  getUnderlyingTokenErrors (TokensRecord entries) =
    Resolved (entries ≫= (λ entry, default [] (address entry.2))).
Proof.
  intros Habsent. rewrite getUnderlyingTokenErrors_record.
  rewrite bool_decide_eq_false_2 by done.
  apply (tokenErrorsFrom_unguarded [] entries).
Qed.

(** X23. [getUnderlyingTokenErrors] raises exactly on a record that has a
    token under the key ["weight"] and a token without [weight] messages:
    the spread of the absent array is the [TypeError]. On a message, or on
    any other record, it returns. *)
Theorem getUnderlyingTokenErrors_raises (tokens : UnderlyingTokenErrors) :
  (∃ e, getUnderlyingTokenErrors tokens = Rejected e) ↔
  ∃ entries, tokens = TokensRecord entries ∧
    "weight" ∈ entries.*1 ∧
    Exists (λ entry, weight entry.2 = None) entries.
Proof.
  destruct tokens as [text | entries].
  { split; [by intros [? ?] | by intros (? & ? & _)]. }
  rewrite getUnderlyingTokenErrors_record.
  case_bool_decide as Hweight.
  - rewrite (tokenErrorsFrom_guarded [] entries).
    split; [by exists entries | by intros (? & [= <-] & _ & ?)].
  - rewrite (tokenErrorsFrom_unguarded [] entries).
    split; [by intros [? ?] | by intros (? & [= <-] & ? & _)].
Qed.

(** X24. When the asset is saved and the upload of its icon rejects with
    a plain error, [save] returns [false] and shows the error of a failed
    save with the message of the upload, while [identifier] already holds
    the identifier of the saved asset; the field errors are not touched. *)
Theorem save_icon_rejected (editAsset : Outcome unit)
    (addAsset : Outcome string) (newIdentifier text : string) (st : State) :
  saveAsset editAsset addAsset st = (Resolved newIdentifier, st) →
  ∃ st',
    save editAsset addAsset (Some (Rejected (Error text))) st
      = (Resolved false, st') ∧
    identifier st' = newIdentifier ∧
    errors st' = errors st ∧
    messages st' =
      messages st ++
      [ Message.mk (Some (if editableItem
                          then t "asset_form.edit_error" []
                          else t "asset_form.add_error" []))
                   (Some text) None ].
Proof.
  intros Hsaved. unfold save.
  cbv beta iota zeta delta [bind ret read update await tryCatch].
  rewrite Hsaved. simpl. by eexists.
Qed.

(** X25. [save] itself rejects when the backend's validation errors carry
    token errors on which [getUnderlyingTokenErrors] raises: the error is
    raised inside the [catch] block, before the field errors are set, so
    no message is shown and no field error is displayed. *)
Theorem save_rejects_on_token_errors (editAsset : Outcome unit)
    (addAsset : Outcome string) (text : string) (errs : ValidationErrors)
    (tokens : UnderlyingTokenErrors) (raised : Exception) (st : State) :
  saveAsset editAsset addAsset st =
    (Rejected (ApiValidationError text (ValidationFields errs)), st) →
  underlyingTokens errs = Some tokens →
  getUnderlyingTokenErrors tokens = Rejected raised →
  save editAsset addAsset None st = (Rejected raised, st).
Proof.
  intros Hsaved Htokens Hraised. unfold save, handleError.
  cbv beta iota zeta delta [bind ret read update await tryCatch].
  rewrite Hsaved. simpl. rewrite Htokens. simpl.
  destruct tokens as [message | entries]; [done |].
  simpl. simpl in Hraised. by rewrite Hraised.
Qed.


End Form.

Lemma getUnderlyingTokenErrors_drops_weights_witness :
  getUnderlyingTokenErrors
    (TokensRecord
       [ ("0", {| address := Some ["Not a valid address"];
                  weight := Some ["Not a valid number"] |});
         ("1", {| address := None; weight := Some ["Out of range"] |}) ]) =
    Resolved ["Not a valid address"].
Proof.
  apply (getUnderlyingTokenErrors_drops_weights
           [ ("0", {| address := Some ["Not a valid address"];
                      weight := Some ["Not a valid number"] |});
             ("1", {| address := None; weight := Some ["Out of range"] |}) ]).
  apply (bool_decide_unpack _). vm_compute. exact I.
Defined.

Lemma save_icon_rejected_witness :
  let t := λ (key : string) (params : list (string * string)), key in
  let st := {| identifier := ""; types := ["evm token"]; errors := ∅;
               messages := []; validations := 0 |} in
  ∃ st',
    save t false (Resolved tt) (Resolved "eip155:1/erc20:0xabc")
         (Some (Rejected (Error "file too large"))) st
      = (Resolved false, st') ∧
    identifier st' = "eip155:1/erc20:0xabc" ∧
    errors st' = errors st ∧
    messages st' =
      messages st ++
      [ Message.mk (Some (t "asset_form.add_error" []))
                   (Some "file too large") None ].
Proof.
  intros t st.
  apply (save_icon_rejected t false (Resolved tt)
           (Resolved "eip155:1/erc20:0xabc") "eip155:1/erc20:0xabc"
           "file too large" st).
  reflexivity.
Defined.

Lemma save_rejects_on_token_errors_witness :
  let t := λ (key : string) (params : list (string * string)), key in
  let tokens :=
    TokensRecord
      [ ("0", {| address := Some ["Not a valid address"];
                 weight := None |});
        ("weight", {| address := None;
                      weight := Some ["Sum is not 100"] |}) ] in
  let errs := {| underlyingTokens := Some tokens; _schema := None;
                 fields := ∅ |} in
  let st := {| identifier := ""; types := ["evm token"]; errors := ∅;
               messages := []; validations := 0 |} in
  save t false (Resolved tt)
       (Rejected (ApiValidationError "invalid" (ValidationFields errs)))
       None st =
    (Rejected (TypeError "ut.weight is not iterable"), st).
Proof.
  intros t tokens errs st.
  apply (save_rejects_on_token_errors t false (Resolved tt)
           (Rejected (ApiValidationError "invalid" (ValidationFields errs)))
           "invalid" errs tokens (TypeError "ut.weight is not iterable") st);
    reflexivity.
Defined.


End ManagedAssetForm.

(** ** What a rejected backend call leads to *)

Module ErrorHandling.

Section CatchAndNotify.

Variable t : string → list (string * string) → string.

(** A text surfaces the message of [e]: it is the message, or a translation
    that received it as one of its named parameters. *)
Definition surfaces (e : Exception) (text : string) : Prop :=
  text = message e ∨
  ∃ key params param, text = t key params ∧ (param, message e) ∈ params.

(** Plain catch-and-notify of a handler whose backend call is rejected with
    [e]: the handler itself completes, one more text is shown, it surfaces
    the message of [e], and the per-field errors of the form, if the
    component has any, are left alone. *)
Definition catchAndNotify {S A : Type}
    (texts : S → list string) (fieldErrors : S → gmap string (list string))
    (handler : Exception → Handler S A) : Prop :=
  ∀ (e : Exception) (st : S),
    ∃ (a : A) (st' : S),
      handler e st = (Resolved a, st') ∧
      (∃ text, texts st' = texts st ++ [text] ∧ surfaces e text) ∧
      fieldErrors st' = fieldErrors st.

End CatchAndNotify.

(** The texts shown by each component. *)
Definition dialogTexts (messages : list Message.t) : list string :=
  omap Message.description messages.

Definition noFieldErrors {S : Type} (_ : S) : gmap string (list string) := ∅.

Definition externalServicesTexts (st : ExternalServices.State) : list string :=
  dialogTexts (ExternalServices.messages st).

Definition backupTexts (st : BackupManager.State) : list string :=
  BackupManager.Notification.message <$> BackupManager.notifications st.

Definition assetFormTexts (st : ManagedAssetForm.State) : list string :=
  dialogTexts (ManagedAssetForm.messages st).

(** The validation data the asset form reads off the caught error. *)
Definition structured (e : Exception) : option ValidationErrors :=
  match e with
  | ApiValidationError _ (ValidationFields errs) => Some errs
  | _ => None
  end.

(** The text the asset form shows for an error without data by field. *)
Definition assetFormText (e : Exception) : string :=
  match e with
  | ApiValidationError _ (ValidationMessage text) => text
  | _ => message e
  end.

(** *** The handlers, one by one *)

Lemma dialogTexts_snoc (messages : list Message.t) (m : Message.t)
    (text : string) :
  Message.description m = Some text →
  dialogTexts (messages ++ [m]) = dialogTexts messages ++ [text].
Proof.
  intros Hm. unfold dialogTexts. rewrite omap_app. simpl. by rewrite Hm.
Qed.

Lemma surfaces_translation (t : string → list (string * string) → string)
    (e : Exception) (key param : string)
    (params : list (string * string)) :
  (param, message e) ∈ params → surfaces t e (t key params).
Proof. intros Hin. right. by exists key, params, param. Qed.


(** X21. The [onMounted] hook of the external-services page awaits
    [queryExternalServices] outside any [try]: when the call rejects, the
    hook rejects with the same error, [loading] stays set and no message
    is raised. *)
Lemma external_services_mounted_rejects
    (ethereum optimism polygon hash : string) (inherited : string → bool)
    (e : Exception) (st : ExternalServices.State) :
  ∃ st',
    ExternalServices.mounted ethereum optimism polygon inherited hash
      (Rejected e) st = (Rejected e, st') ∧
    ExternalServices.loading st' = true ∧
    ExternalServices.messages st' = ExternalServices.messages st.
Proof.
  unfold ExternalServices.mounted, ExternalServices.setActiveTab,
    bind, read, update, await, ret.
  destruct (truthy (substring1 hash) && _); eexists; by split_and!.
Qed.

Section Rejected.

Variable t : string → list (string * string) → string.

Lemma external_services_save_rejected
    (toCapitalCase trim : string → string)
    (ethereum optimism polygon : string)
    (prioritized : list ExternalServices.StoredNotification)
    (fetchLoopringBalances : Outcome unit) (serviceName key : string) :
  catchAndNotify t externalServicesTexts noFieldErrors
    (λ e, ExternalServices.save t toCapitalCase trim ethereum optimism
            polygon prioritized (λ _, Rejected e) fetchLoopringBalances
            serviceName key).
Proof.
  intros e st. unfold ExternalServices.save. run_handler.
  eexists _, _. split; [reflexivity |]. simpl. split; [| done].
  eexists. split; [by apply dialogTexts_snoc |].
  apply surfaces_translation with (param := "error").
  by apply list_elem_of_singleton.
Qed.

Lemma external_services_confirm_rejected
    (ethereum optimism polygon service : string) :
  catchAndNotify t externalServicesTexts noFieldErrors
    (λ e, ExternalServices.confirm t ethereum optimism polygon
            (λ _, Rejected e) service).
Proof.
  intros e st. unfold ExternalServices.confirm. run_handler.
  eexists _, _. split; [reflexivity |]. simpl. split; [| done].
  eexists. split; [by apply dialogTexts_snoc |].
  apply surfaces_translation with (param := "message").
  by apply list_elem_of_singleton.
Qed.

Lemma backup_loadInfo_rejected :
  catchAndNotify t backupTexts noFieldErrors
    (λ e, BackupManager.loadInfo t (Rejected e)).
Proof.
  intros e st.
  unfold BackupManager.loadInfo, BackupManager.loggerError,
    BackupManager.notify. run_handler.
  eexists _, _. split; [reflexivity |]. simpl. split; [| done].
  eexists. unfold backupTexts. simpl. rewrite fmap_app. split; [done |].
  apply surfaces_translation with (param := "message").
  by apply list_elem_of_singleton.
Qed.

Lemma backup_remove_rejected
    (getFilepath : BackupManager.UserDbBackup.t → string → string)
    (db : BackupManager.UserDbBackup.t) :
  catchAndNotify t backupTexts noFieldErrors
    (λ e, BackupManager.remove t getFilepath (λ _, Rejected e) db).
Proof.
  intros e st.
  unfold BackupManager.remove, BackupManager.loggerError,
    BackupManager.notify. run_handler.
  eexists _, _. split; [reflexivity |]. simpl. split; [| done].
  eexists. unfold backupTexts. simpl. rewrite fmap_app. split; [done |].
  apply surfaces_translation with (param := "message").
  apply elem_of_cons. right. by apply list_elem_of_singleton.
Qed.

Lemma backup_massRemove_rejected
    (getFilepath : BackupManager.UserDbBackup.t → string → string) :
  catchAndNotify t backupTexts noFieldErrors
    (λ e, BackupManager.massRemove t getFilepath (λ _, Rejected e)).
Proof.
  intros e st.
  unfold BackupManager.massRemove, BackupManager.loggerError,
    BackupManager.notify. run_handler.
  eexists _, _. split; [reflexivity |]. simpl. split; [| done].
  eexists. unfold backupTexts. simpl. rewrite fmap_app. split; [done |].
  apply surfaces_translation with (param := "message").
  by apply list_elem_of_singleton.
Qed.

Lemma backup_create_rejected (infoApi : Outcome BackupManager.DatabaseInfo) :
  catchAndNotify t backupTexts noFieldErrors
    (λ e, BackupManager.backup t infoApi (Rejected e)).
Proof.
  intros e st.
  unfold BackupManager.backup, BackupManager.loggerError,
    BackupManager.notify. run_handler.
  eexists _, _. split; [reflexivity |]. simpl. split; [| done].
  eexists. unfold backupTexts. simpl. rewrite fmap_app. split; [done |].
  apply surfaces_translation with (param := "message").
  by apply list_elem_of_singleton.
Qed.

Lemma asset_form_types_rejected (CUSTOM_ASSET : string) :
  catchAndNotify t assetFormTexts ManagedAssetForm.errors
    (λ e, ManagedAssetForm.beforeMount t CUSTOM_ASSET (Rejected e)).
Proof.
  intros e st. unfold ManagedAssetForm.beforeMount. run_handler.
  eexists _, _. split; [reflexivity |]. simpl. split; [| done].
  eexists. split; [by apply dialogTexts_snoc |].
  apply surfaces_translation with (param := "message").
  by apply list_elem_of_singleton.
Qed.

(** [save] of the asset form on an error without errors by field. *)
Lemma asset_form_save_plain (editableItem : bool)
    (saveIcon : option (Outcome unit)) (e : Exception)
    (st : ManagedAssetForm.State) :
  structured e = None →
  ∃ st',
    ManagedAssetForm.save t editableItem (Rejected e) (Rejected e) saveIcon
      st = (Resolved false, st') ∧
    assetFormTexts st' = assetFormTexts st ++ [assetFormText e] ∧
    ManagedAssetForm.errors st' = ManagedAssetForm.errors st.
Proof.
  intros Hplain.
  unfold ManagedAssetForm.save, ManagedAssetForm.saveAsset.
  destruct e as [text | text | text [text' | errs]]; try discriminate Hplain;
    destruct editableItem; run_handler;
    eexists; (split; [reflexivity |]); simpl;
    (split; [by apply dialogTexts_snoc | done]).
Qed.

(** [save] of the asset form on an [ApiValidationError] with errors by
    field. *)
Lemma asset_form_save_structured (editableItem : bool)
    (saveIcon : option (Outcome unit)) (e : Exception)
    (errs : ValidationErrors) (st : ManagedAssetForm.State) :
  structured e = Some errs →
  match underlyingTokens errs, _schema errs with
  | None, None =>
      ∃ st',
        ManagedAssetForm.save t editableItem (Rejected e) (Rejected e)
          saveIcon st = (Resolved false, st') ∧
        assetFormTexts st' = assetFormTexts st ∧
        ManagedAssetForm.errors st' = fields errs ∧
        ManagedAssetForm.validations st' =
          S (ManagedAssetForm.validations st)
  | None, Some schema =>
      ∃ st',
        ManagedAssetForm.save t editableItem (Rejected e) (Rejected e)
          saveIcon st = (Resolved false, st') ∧
        assetFormTexts st' = assetFormTexts st ++ option_list (head schema) ∧
        ManagedAssetForm.errors st' = fields errs ∧
        ManagedAssetForm.validations st' =
          S (ManagedAssetForm.validations st)
  | Some (TokensMessage text), schema =>
      ∃ st',
        ManagedAssetForm.save t editableItem (Rejected e) (Rejected e)
          saveIcon st = (Resolved false, st') ∧
        assetFormTexts st' =
          assetFormTexts st ++
          (if truthy text || ManagedAssetForm.schemaTruthy schema
           then [text] else []) ∧
        ManagedAssetForm.errors st' = fields errs ∧
        ManagedAssetForm.validations st' =
          S (ManagedAssetForm.validations st)
  | Some (TokensRecord entries), _ =>
      match ManagedAssetForm.getUnderlyingTokenErrors (TokensRecord entries)
      with
      | Resolved messages =>
          ∃ st',
            ManagedAssetForm.save t editableItem (Rejected e) (Rejected e)
              saveIcon st = (Resolved false, st') ∧
            assetFormTexts st' =
              assetFormTexts st ++ [String.concat "," messages] ∧
            ManagedAssetForm.errors st' = fields errs ∧
            ManagedAssetForm.validations st' =
              S (ManagedAssetForm.validations st)
      | Rejected raised =>
          ManagedAssetForm.save t editableItem (Rejected e) (Rejected e)
            saveIcon st = (Rejected raised, st)
      end
  end.
Proof.
  intros Hstructured.
  destruct e as [text | text | text [text' | errs']];
    try discriminate Hstructured.
  injection Hstructured as ->.
  destruct errs as [[[text' | entries] |] schema fieldErrors]; simpl;
    [| | destruct schema as [schema |]];
    unfold ManagedAssetForm.save, ManagedAssetForm.saveAsset,
      ManagedAssetForm.handleError, ManagedAssetForm.tokensTruthy,
      ManagedAssetForm.schemaTruthy.
  - destruct editableItem; run_handler;
      destruct schema as [schema |], (truthy text') eqn:Htext;
      simpl; eexists; (split; [reflexivity |]); simpl;
      unfold assetFormTexts, dialogTexts; simpl;
      rewrite ?omap_app, ?app_nil_r; done.
  - destruct (ManagedAssetForm.getUnderlyingTokenErrors
                (TokensRecord entries)) as [messages | raised] eqn:Htokens;
      simpl in Htokens;
      destruct editableItem; run_handler; rewrite Htokens; simpl;
      try done;
      eexists; (split; [reflexivity |]); simpl;
      unfold assetFormTexts, dialogTexts; simpl; rewrite omap_app; done.
  - destruct editableItem; run_handler;
      eexists; (split; [reflexivity |]); simpl;
      unfold assetFormTexts, dialogTexts; simpl; rewrite omap_app; simpl;
      destruct (head schema); done.
  - destruct editableItem; run_handler;
      eexists; (split; [reflexivity |]); simpl; done.
Qed.

End Rejected.



End ErrorHandling.

(** ** Snapshot editor, total step (the form that edits the 'total' entry of
       the location data of a snapshot) *)

Module EditSnapshotTotal.

(** *** The types of '@/types/snapshots' *)

Module LocationDataSnapshot.
Record t := mk {
  timestamp : Z;
  location : string;
  usdValue : Qc
}.
End LocationDataSnapshot.

Module BalanceSnapshot.
Record t := mk {
  timestamp : Z;
  category : string;
  assetIdentifier : string;
  amount : Qc;
  usdValue : Qc
}.
End BalanceSnapshot.

(** The computed [suggestions]: [{ total }] or [{ asset, location }]. *)
Inductive Suggestions :=
| TotalSuggestion (total : Qc)
| AssetAndLocationSuggestions (asset location : Qc).

(** [item.location === 'total']. *)
Definition isTotal (item : LocationDataSnapshot.t) : bool :=
  bool_decide (LocationDataSnapshot.location item = "total").

(** [newValue[index].usdValue = v]. *)
Definition withUsdValue (v : Qc) (item : LocationDataSnapshot.t)
  : LocationDataSnapshot.t :=
  LocationDataSnapshot.mk (LocationDataSnapshot.timestamp item)
                          (LocationDataSnapshot.location item) v.

Section Component.

(** [bigNumberSum] and [bigNumberify] of '@/utils', [toFixed] and
    [dividedBy] of [BigNumber] (the division rounds), [isNft] of
    '@/utils/nft' and [CURRENCY_USD] of '@/types/currencies'. *)
Variable bigNumberSum : list Qc → Qc.
Variable bigNumberify : string → Qc.
Variable toFixed : Qc → string.
Variable dividedBy : Qc → Qc → Qc.
Variable isNft : string → bool.
Variable CURRENCY_USD : string.

(** The store: the currency symbol and its exchange rate, if known. *)
Variable currencySymbol : string.
Variable exchangeRate : option Qc.

Definition fiatExchangeRate : Qc :=
  match exchangeRate with
  | Some rate => rate
  | None => 1%Qc
  end.

Definition assetTotal (balancesSnapshot : list BalanceSnapshot.t) : Qc :=
  bigNumberSum
    ((λ item,
        if bool_decide (BalanceSnapshot.category item = "asset")
        then BalanceSnapshot.usdValue item
        else (- BalanceSnapshot.usdValue item)%Qc) <$> balancesSnapshot).

Definition locationTotal (value : list LocationDataSnapshot.t) : Qc :=
  bigNumberSum
    ((λ item,
        if isTotal item then 0%Qc
        else LocationDataSnapshot.usdValue item) <$> value).

Definition nftsTotal (balancesSnapshot : list BalanceSnapshot.t) : Qc :=
  bigNumberSum
    ((λ item,
        if negb (isNft (BalanceSnapshot.assetIdentifier item)) then 0%Qc
        else if bool_decide (BalanceSnapshot.category item = "asset")
        then BalanceSnapshot.usdValue item
        else (- BalanceSnapshot.usdValue item)%Qc) <$> balancesSnapshot).

(** [numericTotal], from the text of the [total] input. *)
Definition numericTotal (total : string) : Qc :=
  if bool_decide (total = "") then 0%Qc
  else if bool_decide (currencySymbol = CURRENCY_USD) then bigNumberify total
  else dividedBy (bigNumberify total) fiatExchangeRate.

Definition nftsExcludedTotal (total : string)
    (balancesSnapshot : list BalanceSnapshot.t) : Qc :=
  (numericTotal total - nftsTotal balancesSnapshot)%Qc.

Definition suggestions (value : list LocationDataSnapshot.t)
    (balancesSnapshot : list BalanceSnapshot.t) : Suggestions :=
  let assetTotalValue := assetTotal balancesSnapshot in
  let locationTotalValue := locationTotal value in
  if bool_decide
       (Qcabs (assetTotalValue - locationTotalValue) <
        Q2Qc (1 # 100000000))%Qc
  then TotalSuggestion assetTotalValue
  else AssetAndLocationSuggestions assetTotalValue locationTotalValue.

(** The text written to [total] for an amount in USD. *)
Definition convertedFiatValue (number : Qc) : string :=
  if bool_decide (currencySymbol = CURRENCY_USD) then toFixed number
  else toFixed (number * fiatExchangeRate)%Qc.

(** The [onBeforeMount] hook: the new text of [total]. *)
Definition beforeMount (value : list LocationDataSnapshot.t) (total : string)
  : string :=
  match find isTotal value with
  | Some totalEntry =>
      convertedFiatValue (LocationDataSnapshot.usdValue totalEntry)
  | None => total
  end.

(** [setTotal(number)]: the new text of [total]; [assert(number)] raises on
    an absent suggestion. *)
Definition setTotal (number : option Qc) : Outcome string :=
  match number with
  | Some n => Resolved (convertedFiatValue n)
  | None => Rejected (Error "Assertion failed")
  end.

(** [save]: what is emitted as ['input']. The copy [newValue] shares its
    entries with the prop, so the prop's 'total' entry sees the same
    assignment. Without a 'total' entry [newValue[-1]] is [undefined] and the
    assignment raises. *)
Definition save (value : list LocationDataSnapshot.t) (total : string)
  : Outcome (list LocationDataSnapshot.t) :=
  let index := findIndex isTotal value in
  if index <? 0 then
    Rejected (TypeError "Cannot set properties of undefined")
  else
    Resolved (alter (withUsdValue (numericTotal total)) (Z.to_nat index) value).

(** *** Properties of save *)

Lemma findIndex_prefix {A : Type} (pred : A → bool) (before after : list A)
    (x : A) :
  Forall (λ y, pred y = false) before → pred x = true →
  findIndex pred (before ++ x :: after) = Z.of_nat (length before).
Proof.
  intros Hbefore Hx. induction Hbefore as [| y before Hy _ IH]; simpl.
  - by rewrite Hx.
  - rewrite Hy, IH.
    replace (Z.of_nat (length before) <? 0) with false
      by (symmetry; apply Z.ltb_ge; lia).
    lia.
Qed.

(** The sum over the locations does not read the 'total' entries. *)
Lemma locationTotal_withUsdValue (before after : list LocationDataSnapshot.t)
    (entry : LocationDataSnapshot.t) (v : Qc) :
  isTotal entry = true →
  locationTotal (before ++ withUsdValue v entry :: after) =
    locationTotal (before ++ entry :: after).
Proof.
  intros Hentry. unfold locationTotal. f_equal.
  rewrite !fmap_app, !fmap_cons. do 2 f_equal.
  unfold isTotal, withUsdValue in *. simpl. by rewrite Hentry.
Qed.

(** C5 (amended). The total step of the snapshot editor keeps no
    relationship between the 'total' location entry and the other entries:
    [save] writes the entered total into the first 'total' entry, whatever
    the other location entries and the balances add up to, and leaves
    every other entry as it is. The entered total is the number parsed from
    the input, divided by the exchange rate unless the currency is USD, and
    zero for an empty input. The sum over the other locations is what it
    was. *)
Theorem save_stores_entered_total
    (before after : list LocationDataSnapshot.t)
    (entry : LocationDataSnapshot.t) (total : string) :
  isTotal entry = true →
  Forall (λ item, isTotal item = false) before →
  let value := before ++ entry :: after in
  let entered :=
    if bool_decide (total = "") then 0%Qc
    else if bool_decide (currencySymbol = CURRENCY_USD)
         then bigNumberify total
         else dividedBy (bigNumberify total) fiatExchangeRate in
  let stored :=
    LocationDataSnapshot.mk (LocationDataSnapshot.timestamp entry)
                            (LocationDataSnapshot.location entry) entered in
  let saved := before ++ stored :: after in
  save value total = Resolved saved ∧
  find isTotal saved = Some stored ∧
  locationTotal saved = locationTotal value.
Proof.
  intros Hentry Hbefore value entered stored saved.
  subst value saved stored entered.
  split_and!.
  - unfold save. rewrite (findIndex_prefix isTotal before after entry) by done.
    replace (Z.of_nat (length before) <? 0) with false
      by (symmetry; apply Z.ltb_ge; lia).
    rewrite Nat2Z.id. f_equal.
    rewrite alter_app_r_alt by lia.
    by replace (length before - length before)%nat with 0%nat by lia.
  - induction Hbefore as [| item before Hitem _ IH]; simpl.
    + unfold isTotal in *. simpl. by rewrite Hentry.
    + by rewrite Hitem.
  - apply (locationTotal_withUsdValue before after entry). done.
Qed.

(** *** Reading the total back *)

(** The text that the component writes for an amount reads back as that
    amount, when [toFixed] and [bigNumberify] are inverse on the text and
    the division undoes the multiplication by the rate. *)
Lemma numericTotal_convertedFiatValue (n : Qc) :
  let shown := if bool_decide (currencySymbol = CURRENCY_USD) then n
               else (n * fiatExchangeRate)%Qc in
  toFixed shown ≠ "" →
  bigNumberify (toFixed shown) = shown →
  (currencySymbol ≠ CURRENCY_USD →
   dividedBy (n * fiatExchangeRate)%Qc fiatExchangeRate = n) →
  numericTotal (convertedFiatValue n) = n.
Proof.
  intros shown Htext Hparse Hrate. subst shown.
  unfold numericTotal, convertedFiatValue.
  case_bool_decide as Husd.
  - rewrite bool_decide_eq_false_2 by done. done.
  - rewrite bool_decide_eq_false_2 by done. rewrite Hparse. by apply Hrate.
Qed.

Lemma find_isTotal (before after : list LocationDataSnapshot.t)
    (entry : LocationDataSnapshot.t) :
  isTotal entry = true →
  Forall (λ item, isTotal item = false) before →
  find isTotal (before ++ entry :: after) = Some entry.
Proof.
  intros Hentry Hbefore.
  induction Hbefore as [| item before Hitem _ IH]; simpl.
  - by rewrite Hentry.
  - by rewrite Hitem.
Qed.

Lemma save_at (before after : list LocationDataSnapshot.t)
    (entry : LocationDataSnapshot.t) (total : string) :
  isTotal entry = true →
  Forall (λ item, isTotal item = false) before →
  save (before ++ entry :: after) total =
    Resolved (before ++ withUsdValue (numericTotal total) entry :: after).
Proof.
  intros Hentry Hbefore.
  unfold save. rewrite (findIndex_prefix isTotal before after entry) by done.
  replace (Z.of_nat (length before) <? 0) with false
    by (symmetry; apply Z.ltb_ge; lia).
  rewrite Nat2Z.id. f_equal.
  rewrite alter_app_r_alt by lia.
  by replace (length before - length before)%nat with 0%nat by lia.
Qed.

(** X26. Opening the total step and saving without a change gives the
    snapshot back as it was: the hook writes the value of the first 'total'
    entry into the input, and [save] writes the same value back, provided
    the text of that value (converted to the currency) is not empty and
    parses back to it, and, for a currency other than USD, the division by
    the rate undoes the multiplication. *)
Theorem save_after_mount (before after : list LocationDataSnapshot.t)
    (entry : LocationDataSnapshot.t) (total : string) :
  let value := before ++ entry :: after in
  let shown := if bool_decide (currencySymbol = CURRENCY_USD)
               then LocationDataSnapshot.usdValue entry
               else (LocationDataSnapshot.usdValue entry *
                     fiatExchangeRate)%Qc in
  isTotal entry = true →
  Forall (λ item, isTotal item = false) before →
  toFixed shown ≠ "" →
  bigNumberify (toFixed shown) = shown →
  (currencySymbol ≠ CURRENCY_USD →
   dividedBy (LocationDataSnapshot.usdValue entry * fiatExchangeRate)%Qc
             fiatExchangeRate = LocationDataSnapshot.usdValue entry) →
  save value (beforeMount value total) = Resolved value.
Proof.
  intros value shown Hentry Hbefore Htext Hparse Hrate. subst value.
  unfold beforeMount. rewrite find_isTotal by done.
  rewrite save_at by done.
  rewrite numericTotal_convertedFiatValue by done.
  by destruct entry.
Qed.

(** X27. [save] raises exactly when the snapshot has no 'total' entry:
    [findIndex] returns [-1] and the assignment to [newValue[-1].usdValue]
    is the [TypeError]. With a 'total' entry it emits a list. *)
Theorem save_raises (value : list LocationDataSnapshot.t) (total : string) :
  (∃ e, save value total = Rejected e) ↔
  Forall (λ item, isTotal item = false) value.
Proof.
  unfold save. split.
  - intros [e Hsave].
    destruct (findIndex isTotal value <? 0) eqn:Hneg; [| done].
    apply Z.ltb_lt in Hneg. by apply TableFilter.findIndex_none.
  - intros Habsent.
    rewrite (BackupManager.findIndex_absent _ _ Habsent). by eexists.
Qed.

(** X28. Taking a suggested total and saving stores that total: [setTotal]
    writes the suggested amount into the input, converted to the currency,
    and [save] then puts the amount itself into the first 'total' entry and
    leaves the other entries as they are, under the same conditions on the
    text and on the rate. *)
Theorem save_after_setTotal (before after : list LocationDataSnapshot.t)
    (entry : LocationDataSnapshot.t) (suggested : Qc) :
  let value := before ++ entry :: after in
  let shown := if bool_decide (currencySymbol = CURRENCY_USD) then suggested
               else (suggested * fiatExchangeRate)%Qc in
  isTotal entry = true →
  Forall (λ item, isTotal item = false) before →
  toFixed shown ≠ "" →
  bigNumberify (toFixed shown) = shown →
  (currencySymbol ≠ CURRENCY_USD →
   dividedBy (suggested * fiatExchangeRate)%Qc fiatExchangeRate
     = suggested) →
  ∃ text,
    setTotal (Some suggested) = Resolved text ∧
    save value text =
      Resolved (before ++ withUsdValue suggested entry :: after).
Proof.
  intros value shown Hentry Hbefore Htext Hparse Hrate. subst value.
  eexists. split; [reflexivity |].
  rewrite save_at by done.
  by rewrite numericTotal_convertedFiatValue.
Qed.

End Component.

Lemma save_stores_entered_total_witness :
  let bigNumberSum := foldr Qcplus 0%Qc in
  let bigNumberify :=
    λ text : string, if String.eqb text "950" then Q2Qc 950 else 0%Qc in
  let kraken := LocationDataSnapshot.mk 1700000000 "kraken" (Q2Qc 400) in
  let blockchain :=
    LocationDataSnapshot.mk 1700000000 "blockchain" (Q2Qc 600) in
  let value :=
    [kraken; LocationDataSnapshot.mk 1700000000 "total" (Q2Qc 1000);
     blockchain] in
  let stored :=
    LocationDataSnapshot.mk 1700000000 "total" (Qcdiv (Q2Qc 950) (Q2Qc 2)) in
  let saved := [kraken; stored; blockchain] in
  save bigNumberify Qcdiv "USD" "EUR" (Some (Q2Qc 2)) value "950"
    = Resolved saved ∧
  find isTotal saved = Some stored ∧
  locationTotal bigNumberSum saved = locationTotal bigNumberSum value.
Proof.
  intros bigNumberSum bigNumberify kraken blockchain value stored saved.
  apply (save_stores_entered_total bigNumberSum bigNumberify Qcdiv
           "USD" "EUR" (Some (Q2Qc 2)) [kraken] [blockchain]
           (LocationDataSnapshot.mk 1700000000 "total" (Q2Qc 1000)) "950").
  - reflexivity.
  - repeat constructor.
Defined.

(** The computed totals are suggestions only: a total of 950 is saved next to
    locations that add up to 1000. *)
Example save_total_differs_from_computed_total :
  let bigNumberSum := foldr Qcplus 0%Qc in
  let bigNumberify := λ _ : string, Q2Qc 950 in
  let value :=
    [ LocationDataSnapshot.mk 1700000000 "kraken" (Q2Qc 400);
      LocationDataSnapshot.mk 1700000000 "total" (Q2Qc 1000);
      LocationDataSnapshot.mk 1700000000 "blockchain" (Q2Qc 600) ] in
  ∃ saved totalEntry,
    save bigNumberify Qcdiv "USD" "USD" None value "950" = Resolved saved ∧
    find isTotal saved = Some totalEntry ∧
    LocationDataSnapshot.usdValue totalEntry = Q2Qc 950 ∧
    locationTotal bigNumberSum saved = Q2Qc 1000 ∧
    LocationDataSnapshot.usdValue totalEntry ≠ locationTotal bigNumberSum saved.
Proof.
  intros bigNumberSum bigNumberify value.
  eexists _, _. split_and!; [reflexivity | reflexivity | reflexivity | |].
  - apply Qc_is_canon. reflexivity.
  - intros Heq. apply (f_equal Qcanon.this) in Heq. vm_compute in Heq.
    discriminate.
Qed.

Lemma save_after_mount_witness :
  let bigNumberify := λ _ : string, Q2Qc 1000 in
  let toFixed := λ _ : Qc, "1000" in
  let value :=
    [ LocationDataSnapshot.mk 1700000000 "kraken" (Q2Qc 200);
      LocationDataSnapshot.mk 1700000000 "total" (Q2Qc 500);
      LocationDataSnapshot.mk 1700000000 "blockchain" (Q2Qc 300) ] in
  save bigNumberify Qcdiv "USD" "EUR" (Some (Q2Qc 2)) value
       (beforeMount toFixed "USD" "EUR" (Some (Q2Qc 2)) value "")
    = Resolved value.
Proof.
  intros bigNumberify toFixed value.
  apply (save_after_mount bigNumberify toFixed Qcdiv "USD" "EUR"
           (Some (Q2Qc 2))
           [LocationDataSnapshot.mk 1700000000 "kraken" (Q2Qc 200)]
           [LocationDataSnapshot.mk 1700000000 "blockchain" (Q2Qc 300)]
           (LocationDataSnapshot.mk 1700000000 "total" (Q2Qc 500)) "").
  - reflexivity.
  - repeat constructor.
  - discriminate.
  - apply Qc_is_canon. reflexivity.
  - intros _. apply Qc_is_canon. reflexivity.
Defined.

Lemma save_after_setTotal_witness :
  let bigNumberify := λ _ : string, Q2Qc 1000 in
  let toFixed := λ _ : Qc, "1000" in
  let before := [LocationDataSnapshot.mk 1700000000 "kraken" (Q2Qc 400)] in
  let entry := LocationDataSnapshot.mk 1700000000 "total" (Q2Qc 950) in
  let after := [LocationDataSnapshot.mk 1700000000 "blockchain" (Q2Qc 600)] in
  ∃ text,
    setTotal toFixed "USD" "USD" None (Some (Q2Qc 1000)) = Resolved text ∧
    save bigNumberify Qcdiv "USD" "USD" None (before ++ entry :: after) text =
      Resolved (before ++ withUsdValue (Q2Qc 1000) entry :: after).
Proof.
  intros bigNumberify toFixed before entry after.
  apply (save_after_setTotal bigNumberify toFixed Qcdiv "USD" "USD" None
           before after entry (Q2Qc 1000)).
  - reflexivity.
  - repeat constructor.
  - discriminate.
  - reflexivity.
  - intros Hne. by destruct Hne.
Defined.


End EditSnapshotTotal.

(** ** Snapshot editor, balance form
       (components/dashboard/edit-snapshot/EditBalancesSnapshotForm.vue) *)

Module EditBalancesSnapshotForm.

(** [BalanceSnapshotPayloadAndLocation]. *)
Record Form := {
  timestamp : Z;
  category : string;
  assetIdentifier : string;
  amount : string;
  usdValue : string;
  location : string
}.

(** [Partial<BalanceSnapshotPayloadAndLocation>]. *)
Record Partial := {
  partialCategory : option string;
  partialAssetIdentifier : option string;
  partialAmount : option string;
  partialUsdValue : option string;
  partialLocation : option string
}.

(** [{ ...form, ...partial }]. *)
Definition merge (form : Form) (partial : Partial) : Form :=
  {| timestamp := timestamp form;
     category := default (category form) (partialCategory partial);
     assetIdentifier :=
       default (assetIdentifier form) (partialAssetIdentifier partial);
     amount := default (amount form) (partialAmount partial);
     usdValue := default (usdValue form) (partialUsdValue partial);
     location := default (location form) (partialLocation partial) |}.

(** The ref [assetType] and the ['update:form'] events emitted so far. *)
Record State := {
  assetType : string;
  emitted : list Form
}.

Definition initial : State := {| assetType := "token"; emitted := [] |}.

Definition updateForm (form : Form) (partial : Partial) (st : State) : State :=
  {| assetType := assetType st;
     emitted := emitted st ++ [merge form partial] |}.

(** [set(assetType, v)] together with [watch(assetType, ...)], which runs
    when the value changed. *)
Definition setAssetType (form : Form) (v : string) (st : State) : State :=
  if bool_decide (assetType st = v) then st
  else
    let st' := {| assetType := v; emitted := emitted st |} in
    if bool_decide (v = "nft") then
      updateForm form
        {| partialCategory := None; partialAssetIdentifier := None;
           partialAmount := Some "1"; partialUsdValue := None;
           partialLocation := None |}
        st'
    else st'.

Section Component.

(** [isNft] of '@/utils/nft'. *)
Variable isNft : string → bool.

(** [checkAssetType], run by the [onBeforeMount] hook and by [watch(form)]. *)
Definition checkAssetType (form : Form) (st : State) : State :=
  if isNft (assetIdentifier form) then setAssetType form "nft" st else st.

Definition beforeMount (form : Form) : State := checkAssetType form initial.

(** *** The amount of an NFT balance *)

(** Mounting the form on a balance whose asset is an NFT emits the balance
    with its [amount] set to ["1"]. *)
Lemma beforeMount_nft (form : Form) :
  isNft (assetIdentifier form) = true →
  emitted (beforeMount form) =
    [ {| timestamp := timestamp form; category := category form;
         assetIdentifier := assetIdentifier form; amount := "1";
         usdValue := usdValue form; location := location form |} ].
Proof. intros Hnft. unfold beforeMount, checkAssetType. by rewrite Hnft. Qed.

(** *** The form after the first check *)

(** [watch(form)] firing for each form of [forms] in turn. *)
Definition formsChanged (forms : list Form) (st : State) : State :=
  foldl (λ st form, checkAssetType form st) st forms.

Lemma checkAssetType_nft (form : Form) (st : State) :
  assetType st = "nft" → checkAssetType form st = st.
Proof.
  intros Hnft. unfold checkAssetType, setAssetType.
  destruct (isNft (assetIdentifier form)); [| done].
  by rewrite bool_decide_eq_true_2.
Qed.

Lemma formsChanged_nft (forms : list Form) (st : State) :
  assetType st = "nft" → formsChanged forms st = st.
Proof.
  intros Hnft. unfold formsChanged.
  induction forms as [| form forms IH]; simpl; [done |].
  by rewrite checkAssetType_nft.
Qed.

(** X29. However often the form changes, [checkAssetType] emits at most
    one update of its own, and that update sets the amount to ["1"]: once
    the asset type is 'nft' the check changes nothing, so the update it
    emitted, coming back as a changed form, does not set off another one.
    Nothing is emitted when the type is 'nft' already or no form holds an
    NFT. *)
Theorem checkAssetType_emits_once (forms : list Form) (st : State) :
  ∃ updates,
    emitted (formsChanged forms st) = emitted st ++ updates ∧
    (length updates ≤ 1)%nat ∧
    Forall (λ form, amount form = "1") updates ∧
    (assetType st = "nft" → updates = []) ∧
    (Forall (λ form, isNft (assetIdentifier form) = false) forms →
     updates = []).
Proof.
  revert st. induction forms as [| form forms IH]; intros st.
  { exists []. rewrite app_nil_r.
    split_and!; [done | simpl; lia | constructor | done | done]. }
  destruct (decide (assetType st = "nft")) as [Hnft | Htoken].
  { exists []. rewrite formsChanged_nft, app_nil_r by done.
    split_and!; [done | simpl; lia | constructor | done | done]. }
  change (formsChanged (form :: forms) st)
    with (formsChanged forms (checkAssetType form st)).
  unfold checkAssetType at 1.
  destruct (isNft (assetIdentifier form)) eqn:Hform.
  - unfold setAssetType. rewrite bool_decide_eq_false_2 by done. simpl.
    rewrite formsChanged_nft by done. simpl.
    eexists [_]. split_and!; [done | simpl; lia | | done |].
    + by apply Forall_singleton.
    + intros [Hno _]%Forall_cons. congruence.
  - destruct (IH st) as (updates & Hemitted & Hlen & Hall & _ & Hnone).
    exists updates. split_and!; [done | done | done | done |].
    intros [_ Hrest]%Forall_cons. by apply Hnone.
Qed.


End Component.

(** That no operation ties entity fields together, as the specification
    words it, fails on the balance form of the snapshot editor: it ties the
    [amount] of a balance to its [assetIdentifier], every balance on an NFT
    is emitted with amount ["1"]. *)
Lemma nft_balance_amount_is_forced :
  let isNft := String.prefix "_nft_" in
  let form := {| timestamp := 1700000000; category := "asset";
                 assetIdentifier := "_nft_0x57f1887a8bf19b14fc0df6fd9b2acc9af147ea85_26";
                 amount := "5"; usdValue := "1200";
                 location := "blockchain" |} in
  emitted (beforeMount isNft form) =
    [ {| timestamp := 1700000000; category := "asset";
         assetIdentifier := "_nft_0x57f1887a8bf19b14fc0df6fd9b2acc9af147ea85_26";
         amount := "1"; usdValue := "1200"; location := "blockchain" |} ] ∧
  (∀ form', isNft (assetIdentifier form') = true →
     ∃ form'', emitted (beforeMount isNft form') = [form''] ∧
               assetIdentifier form'' = assetIdentifier form' ∧
               amount form'' = "1").
Proof.
  intros isNft form. split; [reflexivity |].
  intros form' Hnft. eexists. split; [by apply beforeMount_nft |]. done.
Qed.

End EditBalancesSnapshotForm.

(** ** History events: pending deletions (the view around
       [usePaginationFilters] and [useHistoryTransactions]) *)

Module HistoryEvents.

(** [HistoryEventEntry] of '@/types/history/events': the fields the handlers
    read. *)
Record HistoryEventEntry := {
  identifier : Z;
  txHash : string;
  ignoredInAccounting : bool
}.

(** The message passed to [show] of the confirm store. *)
Record ConfirmationMessage := {
  title : string;
  message : string;
  primaryAction : string
}.

(** The refs [eventToDelete], [transactionToIgnore] and [selected], the
    dialogs shown, and the calls made so far: [ignore] with the selection
    it finds, [deleteTransactionEvent] with its identifiers, and
    [fetchData]. *)
Record State := {
  eventToDelete : option HistoryEventEntry;
  transactionToIgnore : option HistoryEventEntry;
  selected : list HistoryEventEntry;
  shown : list ConfirmationMessage;
  ignoreCalls : list (list HistoryEventEntry * bool);
  deleteCalls : list (list Z);
  fetches : nat
}.

Definition setEventToDelete (v : option HistoryEventEntry) (st : State)
  : State :=
  {| eventToDelete := v; transactionToIgnore := transactionToIgnore st;
     selected := selected st; shown := shown st;
     ignoreCalls := ignoreCalls st; deleteCalls := deleteCalls st;
     fetches := fetches st |}.

Definition setTransactionToIgnore (v : option HistoryEventEntry) (st : State)
  : State :=
  {| eventToDelete := eventToDelete st; transactionToIgnore := v;
     selected := selected st; shown := shown st;
     ignoreCalls := ignoreCalls st; deleteCalls := deleteCalls st;
     fetches := fetches st |}.

Definition setSelected (v : list HistoryEventEntry) (st : State) : State :=
  {| eventToDelete := eventToDelete st;
     transactionToIgnore := transactionToIgnore st;
     selected := v; shown := shown st;
     ignoreCalls := ignoreCalls st; deleteCalls := deleteCalls st;
     fetches := fetches st |}.

Definition show (m : ConfirmationMessage) (st : State) : State :=
  {| eventToDelete := eventToDelete st;
     transactionToIgnore := transactionToIgnore st;
     selected := selected st; shown := shown st ++ [m];
     ignoreCalls := ignoreCalls st; deleteCalls := deleteCalls st;
     fetches := fetches st |}.

Definition resetPendingDeletion (st : State) : State :=
  setTransactionToIgnore None (setEventToDelete None st).

Section View.
Local Open Scope handler_scope.

(** [t] of vue-i18n. *)
Variable t : string → string.

(** The outcomes of [ignore] of [useIgnore] on a selection, of
    [deleteTransactionEvent] (its [success]) and of [fetchData]. *)
Variable ignoreApi : list HistoryEventEntry → bool → Outcome unit.
Variable deleteTransactionEvent : list Z → Outcome bool.
Variable fetchDataApi : Outcome unit.

Definition ignore (ignored : bool) : Handler State unit :=
  let* st := read in
  update (λ st,
    {| eventToDelete := eventToDelete st;
       transactionToIgnore := transactionToIgnore st;
       selected := selected st; shown := shown st;
       ignoreCalls := ignoreCalls st ++ [(selected st, ignored)];
       deleteCalls := deleteCalls st; fetches := fetches st |}) >>
  await (ignoreApi (selected st) ignored).

Definition deleteEvents (ids : list Z) : Handler State bool :=
  update (λ st,
    {| eventToDelete := eventToDelete st;
       transactionToIgnore := transactionToIgnore st;
       selected := selected st; shown := shown st;
       ignoreCalls := ignoreCalls st;
       deleteCalls := deleteCalls st ++ [ids]; fetches := fetches st |}) >>
  await (deleteTransactionEvent ids).

Definition fetchData : Handler State unit :=
  update (λ st,
    {| eventToDelete := eventToDelete st;
       transactionToIgnore := transactionToIgnore st;
       selected := selected st; shown := shown st;
       ignoreCalls := ignoreCalls st; deleteCalls := deleteCalls st;
       fetches := S (fetches st) |}) >>
  await fetchDataApi.

(** [fetchDataAndRefreshEvents(data)], with [reDecodeEvents] left at its
    default. *)
Definition fetchDataAndRefreshEvents : Handler State unit := fetchData.

Definition showDeleteConfirmation : Handler State unit :=
  let* st := read in
  update (show
    match transactionToIgnore st with
    | Some _ =>
        {| title := t "transactions.events.confirmation.ignore.title";
           message := t "transactions.events.confirmation.ignore.message";
           primaryAction :=
             t "transactions.events.confirmation.ignore.action" |}
    | None =>
        {| title := t "transactions.events.confirmation.delete.title";
           message := t "transactions.events.confirmation.delete.message";
           primaryAction := t "common.actions.confirm" |}
    end).

Definition promptForDelete (item : HistoryEventEntry) (canDelete : bool)
  : Handler State unit :=
  (if canDelete then update (setEventToDelete (Some item))
   else update (setTransactionToIgnore (Some item))) >>
  showDeleteConfirmation.

(** [deleteEventHandler]: an identifier of [0] is not truthy, and the
    [return] on a deletion without [success] leaves the function before the
    two refs are reset. *)
Definition deleteEventHandler : Handler State unit :=
  let* st := read in
  match transactionToIgnore st with
  | Some txToIgnore => update (setSelected [txToIgnore]) >> ignore true
  | None => ret tt
  end >>
  let* st := read in
  match eventToDelete st with
  | Some eventToDeleteVal =>
      let id := identifier eventToDeleteVal in
      if id =? 0 then update resetPendingDeletion
      else
        let* success := deleteEvents [id] in
        if negb success then ret tt
        else fetchDataAndRefreshEvents >> update resetPendingDeletion
  | None => update resetPendingDeletion
  end.

End View.


(** *** A deletion without success stays pending *)

(** X3. A deletion that [deleteTransactionEvent] reports as not successful
    stays pending: [deleteEventHandler] returns before it resets
    [eventToDelete]. [promptForDelete] for a transaction to ignore then sets
    [transactionToIgnore] beside it and shows the dialog of ignoring, and the
    next [deleteEventHandler] ignores that transaction and asks again for
    the deletion of the earlier event; only then are both refs reset. *)
Theorem failed_deletion_is_repeated (t : string → string)
    (ignoreApi : list HistoryEventEntry → bool → Outcome unit)
    (firstDelete secondDelete : list Z → Outcome bool)
    (fetchDataApi : Outcome unit)
    (event tx : HistoryEventEntry) (st : State) :
  identifier event ≠ 0 →
  transactionToIgnore st = None →
  firstDelete [identifier event] = Resolved false →
  ignoreApi [tx] true = Resolved tt →
  secondDelete [identifier event] = Resolved true →
  fetchDataApi = Resolved tt →
  let first :=
    bind (promptForDelete t event true)
         (λ _, deleteEventHandler ignoreApi firstDelete fetchDataApi) st in
  let second :=
    bind (promptForDelete t tx false)
         (λ _, deleteEventHandler ignoreApi secondDelete fetchDataApi)
         first.2 in
  first.1 = Resolved tt ∧
  eventToDelete first.2 = Some event ∧
  transactionToIgnore first.2 = None ∧
  second.1 = Resolved tt ∧
  shown second.2 =
    shown st ++
    [ {| title := t "transactions.events.confirmation.delete.title";
         message := t "transactions.events.confirmation.delete.message";
         primaryAction := t "common.actions.confirm" |};
      {| title := t "transactions.events.confirmation.ignore.title";
         message := t "transactions.events.confirmation.ignore.message";
         primaryAction :=
           t "transactions.events.confirmation.ignore.action" |} ] ∧
  ignoreCalls second.2 = ignoreCalls st ++ [([tx], true)] ∧
  deleteCalls second.2 =
    deleteCalls st ++ [[identifier event]; [identifier event]] ∧
  eventToDelete second.2 = None ∧
  transactionToIgnore second.2 = None.
Proof.
  intros Hid Hnone Hfirst Hignore Hsecond Hfetch first second.
  apply Z.eqb_neq in Hid.
  destruct st as [event0 tx0 selected0 shown0 ignored0 deleted0 fetches0].
  simpl in Hnone. subst tx0.
  assert (Hrun1 : first =
    (Resolved tt,
     {| eventToDelete := Some event; transactionToIgnore := None;
        selected := selected0;
        shown := shown0 ++
          [ {| title := t "transactions.events.confirmation.delete.title";
               message := t "transactions.events.confirmation.delete.message";
               primaryAction := t "common.actions.confirm" |} ];
        ignoreCalls := ignored0;
        deleteCalls := deleted0 ++ [[identifier event]];
        fetches := fetches0 |})).
  { subst first.
    unfold promptForDelete, showDeleteConfirmation, deleteEventHandler,
      deleteEvents, ignore, fetchDataAndRefreshEvents, fetchData.
    run_handler. by rewrite Hid, Hfirst. }
  subst second. rewrite Hrun1. simpl.
  unfold promptForDelete, showDeleteConfirmation, deleteEventHandler,
    deleteEvents, ignore, fetchDataAndRefreshEvents, fetchData.
  run_handler. rewrite Hignore. simpl. rewrite Hid, Hsecond. simpl.
  rewrite Hfetch. simpl.
  split_and!; try done; by rewrite <- app_assoc.
Qed.

Lemma failed_deletion_is_repeated_witness :
  let t := λ key : string, key in
  let ignoreApi := λ (_ : list HistoryEventEntry) (_ : bool), Resolved tt in
  let firstDelete := λ _ : list Z, Resolved false in
  let secondDelete := λ _ : list Z, Resolved true in
  let event := {| identifier := 42; txHash := "0xabc";
                  ignoredInAccounting := false |} in
  let tx := {| identifier := 7; txHash := "0xdef";
               ignoredInAccounting := false |} in
  let st := {| eventToDelete := None; transactionToIgnore := None;
               selected := []; shown := []; ignoreCalls := [];
               deleteCalls := []; fetches := 0 |} in
  let first :=
    bind (promptForDelete t event true)
         (λ _, deleteEventHandler ignoreApi firstDelete (Resolved tt)) st in
  let second :=
    bind (promptForDelete t tx false)
         (λ _, deleteEventHandler ignoreApi secondDelete (Resolved tt))
         first.2 in
  first.1 = Resolved tt ∧
  eventToDelete first.2 = Some event ∧
  transactionToIgnore first.2 = None ∧
  second.1 = Resolved tt ∧
  shown second.2 =
    shown st ++
    [ {| title := t "transactions.events.confirmation.delete.title";
         message := t "transactions.events.confirmation.delete.message";
         primaryAction := t "common.actions.confirm" |};
      {| title := t "transactions.events.confirmation.ignore.title";
         message := t "transactions.events.confirmation.ignore.message";
         primaryAction :=
           t "transactions.events.confirmation.ignore.action" |} ] ∧
  ignoreCalls second.2 = ignoreCalls st ++ [([tx], true)] ∧
  deleteCalls second.2 =
    deleteCalls st ++ [[identifier event]; [identifier event]] ∧
  eventToDelete second.2 = None ∧
  transactionToIgnore second.2 = None.
Proof.
  intros t ignoreApi firstDelete secondDelete event tx st.
  apply (failed_deletion_is_repeated t ignoreApi firstDelete secondDelete
           (Resolved tt) event tx st); done.
Defined.


End HistoryEvents.
